(** * base60-codec: a shallow embedding of [src/index.ts] and its properties

    The codec converts non-negative integers, byte arrays, UUIDs and ULIDs
    to text over a 60-symbol alphabet and back.  This development embeds
    the functions of [createBase60Codec] as Rocq functions and proves the
    properties the specification states about them.

    Conventions of the embedding:
    - a JavaScript string is the list of its UTF-16 code units
      ([list Z]); [s.length] is [Z.of_nat (length s)];
    - a [bigint] is a [Z]; [%] and [/] on bigints truncate towards zero
      ([Z.rem], [Z.quot]); [<<] is [Z.shiftl];
    - a [Uint8Array] is the list of its elements;
    - a thrown [Error] is a value of [error], one constructor per [throw]
      of the source; a call returns a [result];
    - the [while] loop of [encodeBigInt] runs on fuel, and a loop that
      exhausts it yields [OutOfFuel]; the theorems show that it never does. *)

From Stdlib Require Import ZArith Lia String Ascii List.
From stdpp Require Import base option list gmap.

Local Open Scope Z_scope.

(** ** The JavaScript built-ins the codec calls *)

Module JS.

(** A string literal of the source, as code units. *)
Definition lit (s : string) : list Z :=
  (λ a, Z.of_N (N_of_ascii a)) <$> list_ascii_of_string s.

(** [s.length] *)
Definition len (s : list Z) : Z := Z.of_nat (length s).

(** [s[i]]: [undefined] (here [None]) out of range. *)
Definition index (s : list Z) (i : Z) : option Z :=
  if i <? 0 then None else s !! Z.to_nat i.

(** String conversion of [s[i]], as done by [+] and [+=] on strings. *)
Definition to_str (o : option Z) : list Z :=
  match o with
  | Some c => [c]
  | None => lit "undefined"
  end.

Definition is_high_surrogate (c : Z) : bool := (0xD800 <=? c) && (c <=? 0xDBFF).
Definition is_low_surrogate (c : Z) : bool := (0xDC00 <=? c) && (c <=? 0xDFFF).

(** The string iterator behind [for (const ch of s)]: one string per
    code point, a surrogate pair taken together. *)
Fixpoint code_points (s : list Z) : list (list Z) :=
  match s with
  | [] => []
  | c :: rest =>
      match rest with
      | c' :: rest' =>
          if is_high_surrogate c && is_low_surrogate c'
          then [c; c'] :: code_points rest'
          else [c] :: code_points rest
      | [] => [[c]]
      end
  end.

Fixpoint starts_with (s p : list Z) : bool :=
  match p, s with
  | [], _ => true
  | _ :: _, [] => false
  | x :: p', y :: s' => (x =? y) && starts_with s' p'
  end.

(** [s.includes(search)]: [search] occurs in [s] as a substring. *)
Fixpoint includes (s search : list Z) : bool :=
  starts_with s search ||
  match s with
  | [] => false
  | _ :: s' => includes s' search
  end.

(** [s.padStart(maxLength, fill)] *)
Definition padStart (s : list Z) (maxLength : Z) (fill : list Z) : list Z :=
  let n := (Z.to_nat maxLength - length s)%nat in
  take n (concat (replicate n fill)) ++ s.

(** [s.substr(start, length)] and [s.slice(from, to)], [s.slice(from)],
    at the non-negative constant positions the source uses. *)
Definition substr (s : list Z) (start length : nat) : list Z :=
  take length (drop start s).
Definition slice (s : list Z) (from to : nat) : list Z :=
  take (to - from) (drop from s).
Definition slice_from (s : list Z) (from : nat) : list Z :=
  drop from s.

(** [s.replace(/-/g, "")] *)
Definition remove_hyphens (s : list Z) : list Z :=
  filter (λ c, c ≠ 45) s.

(** Digit characters of [toString(radix)]: [0-9a-z]. *)
Definition digit_char (d : Z) : Z :=
  if d <? 10 then 48 + d else 87 + d.

(** Digits of a positive number, most significant first, in front of
    [acc].  [fuel] bounds the number of digits. *)
Fixpoint digits_from (fuel : nat) (radix v : Z) (acc : list Z) : list Z :=
  match fuel with
  | O => acc
  | S fuel' =>
      if v <=? 0 then acc
      else digits_from fuel' radix (v / radix) (digit_char (v mod radix) :: acc)
  end.

(** [v.toString(radix)] for a bigint or an integral number [v]. *)
Definition toString (v radix : Z) : list Z :=
  if v =? 0 then lit "0"
  else if v <? 0 then 45 :: digits_from (S (Z.to_nat (Z.log2 (- v)))) radix (- v) []
  else digits_from (S (Z.to_nat (Z.log2 v))) radix v [].

(** White space and line terminators that [parseInt] skips. *)
Definition is_white_space (c : Z) : bool :=
  ((9 <=? c) && (c <=? 13)) || (c =? 32) || (c =? 0xA0) || (c =? 0x1680) ||
  ((0x2000 <=? c) && (c <=? 0x200A)) || (c =? 0x2028) || (c =? 0x2029) ||
  (c =? 0x202F) || (c =? 0x205F) || (c =? 0x3000) || (c =? 0xFEFF).

Fixpoint trim_start (s : list Z) : list Z :=
  match s with
  | c :: s' => if is_white_space c then trim_start s' else s
  | [] => []
  end.

(** Value of a digit character in [radix], [None] when it is none. *)
Definition digit_value (radix c : Z) : option Z :=
  let d :=
    if (48 <=? c) && (c <=? 57) then c - 48
    else if (97 <=? c) && (c <=? 122) then c - 87
    else if (65 <=? c) && (c <=? 90) then c - 55
    else radix in
  if d <? radix then Some d else None.

(** The longest prefix of digits, folded into a number. *)
Fixpoint parse_digits (radix : Z) (s : list Z) (acc : option Z) : option Z :=
  match s with
  | [] => acc
  | c :: s' =>
      match digit_value radix c with
      | Some d => parse_digits radix s' (Some (default 0 acc * radix + d))
      | None => acc
      end
  end.

(** [parseInt(s, radix)] for [2 <= radix <= 36]; [None] is [NaN].  The
    result is exact, as it is in JavaScript below 2^53. *)
Definition parseInt (s : list Z) (radix : Z) : option Z :=
  let s1 := trim_start s in
  let '(sign, s2) :=
    match s1 with
    | c :: r =>
        if c =? 45 then (-1, r) else if c =? 43 then (1, r) else (1, s1)
    | [] => (1, s1)
    end in
  let s3 :=
    if radix =? 16 then
      match s2 with
      | c :: x :: r =>
          if (c =? 48) && ((x =? 120) || (x =? 88)) then r else s2
      | _ => s2
      end
    else s2 in
  (λ n, sign * n) <$> parse_digits radix s3 None.

(** Storing a number into a [Uint8Array] element: [NaN] becomes 0, an
    integer is taken modulo 256. *)
Definition toUint8 (n : option Z) : Z :=
  match n with
  | Some n => n mod 256
  | None => 0
  end.

(** ASCII case mapping.  [toUpperCase] and [toLowerCase] agree with it
    on strings of ASCII characters. *)
Definition ascii_upper (c : Z) : Z :=
  if (97 <=? c) && (c <=? 122) then c - 32 else c.
Definition ascii_lower (c : Z) : Z :=
  if (65 <=? c) && (c <=? 90) then c + 32 else c.
Definition toUpperCase (s : list Z) : list Z := ascii_upper <$> s.
Definition toLowerCase (s : list Z) : list Z := ascii_lower <$> s.

End JS.

(** ** Errors and results *)

(** One constructor per [throw new Error(...)] of the source, named after
    its message.  The source throws plain [Error]s; the names of the
    specification's taxonomy are given on the right. *)
Inductive error : Type :=
  | EncodedLengthExceeds (length fixed : Z) (* leftPad: OverflowError *)
  | NegativeBigInt               (* bigIntToBytes: DomainError *)
  | DecodedBytesExceed           (* bigIntToBytes: LengthExceededError *)
  | InvalidCharacter (ch : list Z) (* decodeToBigInt: InvalidCharacterError *)
  | ExpectedInt64Chars           (* decodeInt64: LengthMismatchError *)
  | InvalidUUID                  (* encodeUUID: FormatError *)
  | InvalidULIDFormat            (* encodeULID: FormatError *)
  | InvalidULIDChar (ch : list Z) (* encodeULID: InvalidCharacterError *)
  | ExpectedULIDChars.           (* decodeULID: LengthMismatchError *)

Inductive result (A : Type) : Type :=
  | Ok (a : A)
  | Throw (e : error)
  | OutOfFuel.
Arguments Ok {A} a.
Arguments Throw {A} e.
Arguments OutOfFuel {A}.

#[global] Instance result_bind : MBind result := λ A B k r,
  match r with
  | Ok a => k a
  | Throw e => Throw e
  | OutOfFuel => OutOfFuel
  end.
#[global] Instance result_ret : MRet result := λ A a, Ok a.
#[global] Instance result_fmap : FMap result := λ A B f r,
  match r with
  | Ok a => Ok (f a)
  | Throw e => Throw e
  | OutOfFuel => OutOfFuel
  end.

(** ** The codec *)

Module Base60.
Import JS.

Definition FIXED_LEN_UUID : Z := 22.
Definition FIXED_LEN_ULID : Z := 22.
Definition FIXED_LEN_INT64 : Z := 11.

Definition alphabet : list Z :=
  lit "0123456789ABCDEFGHIJKLMNPQRSTUVWXYZabcdefghijkmnopqrstuvwxyz".

Definition crockford : list Z := lit "0123456789ABCDEFGHJKMNPQRSTVWXYZ".

Definition base : Z := len alphabet.

(** The [for] loop filling [charToValue]. *)
Definition charToValue : gmap (list Z) Z :=
  foldl (λ m i, <[to_str (alphabet !! i) := Z.of_nat i]> m) ∅
        (seq 0 (length alphabet)).

Definition leftPad (text : list Z) (length : Z) : result (list Z) :=
  if length <? len text then Throw (EncodedLengthExceeds (len text) length)
  else
    Ok (match index alphabet 0 with
        | Some c => padStart text length [c]
        | None => padStart text length (lit " ")
        end).

Definition bytesToBigInt (bytes : list Z) : Z :=
  foldl (λ result b, Z.shiftl result 8 + b) 0 bytes.

(** The loop [for (i < n) bytes[i] = parseInt(hex.substr(i * 2, 2), 16)]
    over a fresh [Uint8Array(n)], in [bigIntToBytes] and [encodeUUID]. *)
Definition hex_to_bytes (hex : list Z) (n : nat) : list Z :=
  (λ i, toUint8 (parseInt (substr hex (i * 2) 2) 16)) <$> seq 0 n.

Definition bigIntToBytes (value : Z) (fixedLength : option Z) : result (list Z) :=
  if value <? 0 then Throw NegativeBigInt
  else
    let hex := toString value 16 in
    let hex := if Z.of_nat (length hex) mod 2 =? 1 then lit "0" ++ hex else hex in
    let bytes := hex_to_bytes hex (length hex / 2) in
    match fixedLength with
    | Some fixedLength =>
        if fixedLength <? len bytes then Throw DecodedBytesExceed
        else Ok (replicate (Z.to_nat fixedLength - length bytes) 0 ++ bytes)
    | None => Ok bytes
    end.

(** The loop [while (v > 0n)] of [encodeBigInt]. *)
Fixpoint encode_while (fuel : nat) (v : Z) (out : list Z) : option (list Z) :=
  if 0 <? v then
    match fuel with
    | O => None
    | S fuel' =>
        let md := Z.rem v base in
        let v := Z.quot v base in
        encode_while fuel' v (to_str (index alphabet md) ++ out)
    end
  else Some out.

(** Iterations granted to the loop: the bit length of [v]. *)
Definition encode_fuel (v : Z) : nat := S (Z.to_nat (Z.log2 v)).

Definition encodeBigInt (value : Z) (padLength : option Z) : result (list Z) :=
  if value =? 0 then
    match padLength with
    | Some padLength => leftPad (to_str (index alphabet 0)) padLength
    | None => Ok (to_str (index alphabet 0))
    end
  else
    match encode_while (encode_fuel value) value [] with
    | None => OutOfFuel
    | Some out =>
        match padLength with
        | Some padLength => leftPad out padLength
        | None => Ok out
        end
    end.

Fixpoint decode_for (chars : list (list Z)) (v : Z) : result Z :=
  match chars with
  | [] => Ok v
  | ch :: chars' =>
      match charToValue !! ch with
      | None => Throw (InvalidCharacter ch)
      | Some d => decode_for chars' (v * base + d)
      end
  end.

Definition decodeToBigInt (text : list Z) : result Z :=
  decode_for (code_points text) 0.

Definition encodeBytes (bytes : list Z) : result (list Z) :=
  encodeBigInt (bytesToBigInt bytes) None.

Definition decodeToBytes (text : list Z) : result (list Z) :=
  v ← decodeToBigInt text;
  bigIntToBytes v None.

(** [value] is a bigint or an integral number; [BigInt(value)] is then
    that integer. *)
Definition encodeInt64 (value : Z) : result (list Z) :=
  s ← encodeBigInt value None;
  leftPad s FIXED_LEN_INT64.

Definition decodeInt64 (text : list Z) : result Z :=
  if negb (len text =? FIXED_LEN_INT64) then Throw ExpectedInt64Chars
  else decodeToBigInt text.

Definition encodeUUID (uuid : list Z) : result (list Z) :=
  let hex := remove_hyphens uuid in
  if negb (len hex =? 32) then Throw InvalidUUID
  else
    let bytes := hex_to_bytes hex 16 in
    s ← encodeBigInt (bytesToBigInt bytes) None;
    leftPad s FIXED_LEN_UUID.

Definition decodeUUID (text : list Z) : result (list Z) :=
  v ← decodeToBigInt text;
  bytes ← bigIntToBytes v (Some 16);
  let hex := concat ((λ b, padStart (toString b 16) 2 (lit "0")) <$> bytes) in
  Ok (slice hex 0 8 ++ lit "-" ++ slice hex 8 12 ++ lit "-" ++
      slice hex 12 16 ++ lit "-" ++ slice hex 16 20 ++ lit "-" ++
      slice_from hex 20).

(** The character class [[0-9A-HJKMNP-TV-Z]]. *)
Definition ulid_class (c : Z) : bool :=
  ((48 <=? c) && (c <=? 57)) || ((65 <=? c) && (c <=? 72)) ||
  (c =? 74) || (c =? 75) || (c =? 77) || (c =? 78) ||
  ((80 <=? c) && (c <=? 84)) || ((86 <=? c) && (c <=? 90)).

(** [/^[0-9A-HJKMNP-TV-Z]{26}$/i.test(ulid)].  Under the [i] flag a code
    unit matches the class when its canonical (upper-case) form is in
    it; a non-ASCII code unit never canonicalizes to an ASCII one, so
    the ASCII case mapping decides membership. *)
Definition ulid_regex_test (ulid : list Z) : bool :=
  (length ulid =? 26)%nat && forallb (λ c, ulid_class (ascii_upper c)) ulid.

(** The [for] loop filling [map32]. *)
Definition map32 : gmap (list Z) Z :=
  foldl (λ m i, <[to_str (crockford !! i) := Z.of_nat i]> m) ∅
        (seq 0 (length crockford)).

Fixpoint ulid_for (chars : list (list Z)) (value : Z) : result Z :=
  match chars with
  | [] => Ok value
  | ch :: chars' =>
      match map32 !! ch with
      | None => Throw (InvalidULIDChar ch)
      | Some v => ulid_for chars' (Z.shiftl value 5 + v)
      end
  end.

(** Past the test of the regular expression [ulid] is a string of ASCII
    letters and digits, on which [toUpperCase] is the ASCII mapping. *)
Definition encodeULID (ulid : list Z) : result (list Z) :=
  if negb (ulid_regex_test ulid) then Throw InvalidULIDFormat
  else
    value ← ulid_for (code_points (toUpperCase ulid)) 0;
    raw ← encodeBigInt value None;
    leftPad raw FIXED_LEN_ULID.

(** Step 3 of [decodeULID], bytes to Crockford base 32: the bits of the
    bytes, padded to 130, cut into 26 chunks of 5. *)
Definition bytes_to_crockford (bytes : list Z) : list Z :=
  let bits :=
    foldl (λ bits b, bits ++ padStart (toString b 2) 8 (lit "0")) [] bytes in
  let padded := padStart bits 130 (lit "0") in
  foldl (λ ulid i,
           let chunk := slice padded (i * 5) (i * 5 + 5) in
           ulid ++ to_str (match parseInt chunk 2 with
                           | Some n => index crockford n
                           | None => None
                           end))
        [] (seq 0 26).

Definition decodeULID (text : list Z) : result (list Z) :=
  if negb (len text =? 22) then Throw ExpectedULIDChars
  else
    value ← decodeToBigInt text;
    bytes ← bigIntToBytes value (Some 16);
    Ok (bytes_to_crockford bytes).

Definition compareAsBigInt (a b : list Z) : result Z :=
  ai ← decodeToBigInt a;
  bi ← decodeToBigInt b;
  if ai <? bi then Ok (-1)
  else if bi <? ai then Ok 1
  else Ok 0.

Fixpoint isValid_for (chars : list (list Z)) : bool :=
  match chars with
  | [] => true
  | ch :: chars' =>
      if negb (includes alphabet ch) then false else isValid_for chars'
  end.

Definition isValidBase60 (text : list Z) : bool :=
  isValid_for (code_points text).

End Base60.


(** ** Notions the specification is stated with *)

Module Spec.
Import JS Base60.

(** Horner evaluation of a digit list, most significant digit first. *)
Definition horner_from (b acc : Z) (ds : list Z) : Z :=
  foldl (λ acc d, acc * b + d) acc ds.
Definition horner (b : Z) (ds : list Z) : Z := horner_from b 0 ds.

(** A list of digits of radix [b]. *)
Definition digits_in (b : Z) (ds : list Z) : Prop :=
  Forall (λ d, 0 <= d < b) ds.

(** The digits of [v] in radix [b] by repeated division, in front of
    [acc]; [digits b v] is the minimal digit list of [v], empty for 0. *)
Fixpoint digits_fuel (fuel : nat) (b v : Z) (acc : list Z) : list Z :=
  match fuel with
  | O => acc
  | S fuel' =>
      if v <=? 0 then acc
      else digits_fuel fuel' b (v / b) (v mod b :: acc)
  end.
Definition digits (b v : Z) : list Z :=
  digits_fuel (S (Z.to_nat (Z.log2 v))) b v [].

(** The symbol of the alphabet for a digit. *)
Definition symbol (d : Z) : Z := default 0 (index alphabet d).

(** The minimal base-60 representation of a non-negative integer: its
    digits as symbols, and the zero symbol alone for 0. *)
Definition minimal_repr (v : Z) : list Z :=
  if v =? 0 then [symbol 0] else symbol <$> digits 60 v.

(** Position of a symbol in the alphabet, its digit value. *)
Fixpoint position (c : Z) (s : list Z) : option Z :=
  match s with
  | [] => None
  | x :: s' => if x =? c then Some 0 else Z.succ <$> position c s'
  end.
Definition rank (c : Z) : Z := default 0 (position c alphabet).

(** Lexicographic comparison of two strings under the order of the
    alphabet's symbols, as -1, 0 or 1. *)
Fixpoint lex_compare (a b : list Z) : Z :=
  match a, b with
  | [], [] => 0
  | [], _ :: _ => -1
  | _ :: _, [] => 1
  | x :: a', y :: b' =>
      match rank x ?= rank y with
      | Lt => -1
      | Gt => 1
      | Eq => lex_compare a' b'
      end
  end.

Definition is_hex (c : Z) : bool :=
  ((48 <=? c) && (c <=? 57)) || ((97 <=? c) && (c <=? 102)) ||
  ((65 <=? c) && (c <=? 70)).

(** The canonical UUID text: 36 characters, hexadecimal digits in groups
    of 8-4-4-4-12 separated by hyphens. *)
Definition is_uuid (u : list Z) : bool :=
  (length u =? 36)%nat &&
  forallb is_hex (slice u 0 8) && bool_decide (slice u 8 9 = lit "-") &&
  forallb is_hex (slice u 9 13) && bool_decide (slice u 13 14 = lit "-") &&
  forallb is_hex (slice u 14 18) && bool_decide (slice u 18 19 = lit "-") &&
  forallb is_hex (slice u 19 23) && bool_decide (slice u 23 24 = lit "-") &&
  forallb is_hex (slice u 24 36).

(** Hyphens inserted into 32 characters in the grouping 8-4-4-4-12. *)
Definition hyphenate (hex : list Z) : list Z :=
  slice hex 0 8 ++ lit "-" ++ slice hex 8 12 ++ lit "-" ++
  slice hex 12 16 ++ lit "-" ++ slice hex 16 20 ++ lit "-" ++
  slice_from hex 20.

(** A ULID text: 26 Crockford base-32 characters in either case. *)
Definition is_ulid (u : list Z) : bool :=
  (length u =? 26)%nat &&
  forallb (λ c, bool_decide (ascii_upper c ∈ crockford)) u.

(** The Crockford symbol of a 5-bit group. *)
Definition crockford_symbol (d : Z) : Z := default 0 (index crockford d).

(** The digits of [v] in radix [r], padded with zeros to [n] digits. *)
Definition fixed_digits (r : Z) (n : nat) (v : Z) : list Z :=
  replicate (n - length (digits r v)) 0 ++ digits r v.

(** The value of a Crockford base-32 character in either case. *)
Definition crockford_value (c : Z) : Z :=
  default 0 (position (ascii_upper c) crockford).

(** The integer a ULID text stands for: 26 groups of 5 bits. *)
Definition ulid_value (u : list Z) : Z := horner 32 (crockford_value <$> u).

(** The map built by a loop [for (i ...) m.set(s[i], i)] over the
    characters of [s], as the loops filling [charToValue] and [map32]. *)
Definition index_map (s : list Z) : gmap (list Z) Z :=
  foldl (λ m i, <[to_str (s !! i) := Z.of_nat i]> m) ∅ (seq 0 (length s)).

(** The string of one character. *)
Definition char_str (c : Z) : list Z := [c].

(** A character, as the string iterator yields it, that is one of the
    60 symbols of the alphabet. *)
Definition is_symbol (ch : list Z) : Prop := ∃ c, ch = [c] ∧ c ∈ alphabet.

(** What the string iterator yields: one code unit, or a surrogate
    pair. *)
Definition is_code_point (ch : list Z) : Prop :=
  (∃ c, ch = [c]) ∨ (∃ h l, ch = [h; l] ∧ is_high_surrogate h = true).

(** [m] is a minimal representation of [v]: a non-empty string of
    symbols that decodes to [v], and no non-empty string that decodes to
    [v] is shorter. *)
Definition is_minimal_repr (v : Z) (m : list Z) : Prop :=
  m ≠ [] ∧ decodeToBigInt m = Ok v ∧
  ∀ s, s ≠ [] → decodeToBigInt s = Ok v → (length m <= length s)%nat.

(** A byte list without its leading zero bytes. *)
Fixpoint drop_zeros (bs : list Z) : list Z :=
  match bs with
  | b :: bs' => if b =? 0 then drop_zeros bs' else bs
  | [] => []
  end.

(** The minimal byte list of the same big-endian value: the leading zero
    bytes dropped, a single zero byte when nothing else is left. *)
Definition minimal_bytes (bs : list Z) : list Z :=
  match drop_zeros bs with
  | [] => [0]
  | l => l
  end.

End Spec.

Import JS Base60 Spec.

(** ** Positional numerals *)

Section Numerals.
Variable b : Z.
Hypothesis Hb : 1 < b.

Lemma horner_from_app acc l1 l2 :
  horner_from b acc (l1 ++ l2) = horner_from b (horner_from b acc l1) l2.
Proof. apply foldl_app. Qed.

Lemma horner_from_shift l acc :
  horner_from b acc l = acc * b ^ Z.of_nat (length l) + horner b l.
Proof.
  unfold horner. revert acc.
  induction l as [|d l IH]; intros acc; cbn [horner_from foldl length].
  - change (b ^ Z.of_nat 0) with 1. lia.
  - fold (horner_from b (acc * b + d) l). fold (horner_from b (0 * b + d) l).
    rewrite (IH (acc * b + d)), (IH (0 * b + d)).
    rewrite Nat2Z.inj_succ, Z.pow_succ_r by lia. ring.
Qed.

Lemma horner_app l1 l2 :
  horner b (l1 ++ l2) = horner b l1 * b ^ Z.of_nat (length l2) + horner b l2.
Proof.
  unfold horner at 1. rewrite horner_from_app, horner_from_shift. reflexivity.
Qed.

Lemma horner_cons d l :
  horner b (d :: l) = d * b ^ Z.of_nat (length l) + horner b l.
Proof.
  change (d :: l) with ([d] ++ l). rewrite horner_app.
  unfold horner at 1. cbn. lia.
Qed.

Lemma horner_nil : horner b [] = 0.
Proof. reflexivity. Qed.

Lemma horner_snoc l d : horner b (l ++ [d]) = horner b l * b + d.
Proof.
  rewrite horner_app. cbn [length].
  change (b ^ Z.of_nat 1) with (b ^ 1). rewrite Z.pow_1_r.
  unfold horner at 2. cbn. lia.
Qed.

Lemma horner_bounds l :
  digits_in b l → 0 <= horner b l < b ^ Z.of_nat (length l).
Proof.
  induction 1 as [|d l Hd _ IH].
  - rewrite horner_nil. cbn. lia.
  - rewrite horner_cons. cbn [length].
    rewrite Nat2Z.inj_succ, Z.pow_succ_r by lia.
    assert (0 < b ^ Z.of_nat (length l)) by (apply Z.pow_pos_nonneg; lia).
    nia.
Qed.

Lemma horner_replicate_0 n l :
  horner b (replicate n 0 ++ l) = horner b l.
Proof.
  induction n as [|n IH]; [done|].
  cbn [replicate app]. rewrite horner_cons, IH. lia.
Qed.

(** Two digit lists of one length and one value are equal. *)
Lemma horner_inj l1 l2 :
  length l1 = length l2 → digits_in b l1 → digits_in b l2 →
  horner b l1 = horner b l2 → l1 = l2.
Proof.
  intros Hlen H1. revert l2 Hlen.
  induction H1 as [|d1 l1 Hd1 Hl1 IH]; intros [|d2 l2] Hlen H2 Heq;
    try discriminate; [done|].
  apply Forall_cons in H2 as [Hd2 Hl2].
  injection Hlen as Hlen.
  rewrite !horner_cons, <- Hlen in Heq.
  pose proof (horner_bounds l1 Hl1) as B1.
  pose proof (horner_bounds l2 Hl2) as B2.
  rewrite <- Hlen in B2.
  assert (d1 = d2) as -> by nia.
  f_equal. apply IH; [done..|lia].
Qed.

(** Comparing two digit lists of one length digit by digit compares
    their values. *)
Lemma horner_compare_cons d1 d2 l1 l2 :
  length l1 = length l2 → digits_in b (d1 :: l1) → digits_in b (d2 :: l2) →
  (horner b (d1 :: l1) ?= horner b (d2 :: l2)) =
  match d1 ?= d2 with
  | Eq => horner b l1 ?= horner b l2
  | c => c
  end.
Proof.
  intros Hlen [Hd1 Hl1]%Forall_cons [Hd2 Hl2]%Forall_cons.
  rewrite !horner_cons, <- Hlen.
  pose proof (horner_bounds l1 Hl1) as B1.
  pose proof (horner_bounds l2 Hl2) as B2.
  rewrite <- Hlen in B2.
  destruct (Z.compare_spec d1 d2) as [->|Hlt|Hgt].
  - destruct (Z.compare_spec (horner b l1) (horner b l2)) as [He|He|He].
    + rewrite He. apply Z.compare_refl.
    + apply Z.compare_lt_iff. lia.
    + apply Z.compare_gt_iff. lia.
  - apply Z.compare_lt_iff. nia.
  - apply Z.compare_gt_iff. nia.
Qed.

Lemma digits_fuel_acc fuel v acc :
  digits_fuel fuel b v acc = digits_fuel fuel b v [] ++ acc.
Proof.
  revert v acc. induction fuel as [|fuel IH]; intros v acc; [done|].
  cbn [digits_fuel]. destruct (v <=? 0); [done|].
  rewrite (IH _ (_ :: acc)), (IH _ [_]), <- app_assoc. done.
Qed.

Lemma digits_fuel_step fuel v :
  0 < v →
  digits_fuel (S fuel) b v [] = digits_fuel fuel b (v / b) [] ++ [v mod b].
Proof.
  intros Hv. cbn [digits_fuel].
  destruct (Z.leb_spec v 0); [lia|]. apply digits_fuel_acc.
Qed.

(** With one unit of fuel per bit, repeated division yields the digits
    of [v]: in range, of value [v], without a leading zero. *)
Lemma digits_fuel_spec fuel v :
  0 <= v < 2 ^ Z.of_nat fuel →
  let ds := digits_fuel fuel b v [] in
  digits_in b ds ∧ horner b ds = v ∧
  (0 < v → b ^ (Z.of_nat (length ds) - 1) <= v) ∧
  (0 < v ↔ ds ≠ []).
Proof.
  revert v. induction fuel as [|fuel IH]; intros v Hv ds.
  - change (2 ^ Z.of_nat 0) with 1 in Hv.
    subst ds; cbn. repeat split; try done; try lia. constructor.
  - destruct (decide (v = 0)) as [->|Hne].
    { subst ds; cbn. repeat split; try done; try lia. constructor. }
    assert (0 < v) as Hpos by lia.
    subst ds. rewrite digits_fuel_step by done.
    rewrite Nat2Z.inj_succ, Z.pow_succ_r in Hv by lia.
    pose proof (Z.div_mod v b ltac:(lia)) as Hdm.
    pose proof (Z.mod_pos_bound v b ltac:(lia)) as Hm.
    assert (0 <= v / b) as Hq0 by (apply Z.div_pos; lia).
    assert (0 <= v / b < 2 ^ Z.of_nat fuel) as Hq by nia.
    destruct (IH _ Hq) as (Hin & Hval & Hmin & Hne').
    set (ds' := digits_fuel fuel b (v / b) []) in *.
    repeat split.
    + apply Forall_app; split; [done|]. constructor; [done|constructor].
    + rewrite horner_snoc, Hval. lia.
    + intros _. rewrite length_app. cbn [length].
      destruct (decide (v / b = 0)) as [Hz|Hz].
      * assert (ds' = []) as ->.
        { destruct ds'; [done|]. exfalso.
          assert (0 < v / b) by (apply Hne'; done). lia. }
        cbn. lia.
      * assert (0 < v / b) as Hqp by lia.
        specialize (Hmin Hqp).
        replace (Z.of_nat (length ds' + 1) - 1)
          with (Z.succ (Z.of_nat (length ds') - 1)) by lia.
        assert (ds' ≠ []) as Hnn by (apply Hne'; done).
        assert (0 < length ds')%nat by (destruct ds'; [done|cbn; lia]).
        rewrite Z.pow_succ_r by lia. nia.
    + intros _. by destruct ds'.
    + done.
Qed.

Lemma digits_spec v :
  0 <= v →
  digits_in b (digits b v) ∧ horner b (digits b v) = v ∧
  (0 < v → b ^ (Z.of_nat (length (digits b v)) - 1) <= v) ∧
  (0 < v ↔ digits b v ≠ []).
Proof.
  intros Hv. apply digits_fuel_spec.
  destruct (decide (v = 0)) as [->|Hne]; [done|].
  pose proof (Z.log2_spec v ltac:(lia)) as [_ Hlt].
  pose proof (Z.log2_nonneg v).
  rewrite Nat2Z.inj_succ, Z2Nat.id by lia. lia.
Qed.

(** A value below [b^n] has at most [n] digits. *)
Lemma digits_length v n :
  0 <= v < b ^ Z.of_nat n → (length (digits b v) <= n)%nat.
Proof.
  intros [Hv Hlt].
  destruct (digits_spec v Hv) as (_ & _ & Hmin & Hne).
  destruct (decide (v = 0)) as [->|Hnz]; [cbn; lia|].
  specialize (Hmin ltac:(lia)).
  destruct (decide (length (digits b v) <= n)%nat) as [|Hgt]; [done|].
  exfalso.
  assert (b ^ Z.of_nat n <= b ^ (Z.of_nat (length (digits b v)) - 1))
    by (apply Z.pow_le_mono_r; lia).
  lia.
Qed.

(** A positive value with [n] digits is at least [b^(n-1)]: a value of
    at least [b^n] has more than [n] digits. *)
Lemma digits_length_lower v n :
  b ^ Z.of_nat n <= v → (n < length (digits b v))%nat.
Proof.
  intros Hle.
  assert (0 < b ^ Z.of_nat n) by (apply Z.pow_pos_nonneg; lia).
  destruct (digits_spec v ltac:(lia)) as (Hin & Hval & _ & _).
  pose proof (horner_bounds _ Hin) as Hb'. rewrite Hval in Hb'.
  destruct (decide (n < length (digits b v))%nat) as [|Hge]; [done|].
  exfalso.
  assert (b ^ Z.of_nat (length (digits b v)) <= b ^ Z.of_nat n)
    by (apply Z.pow_le_mono_r; lia).
  lia.
Qed.

End Numerals.

(** ** The result monad *)

Lemma bind_Ok {A B} (a : A) (k : A → result B) : (x ← Ok a; k x) = k a.
Proof. reflexivity. Qed.

Lemma bind_Throw {A B} (e : error) (k : A → result B) :
  (x ← Throw e; k x) = Throw e.
Proof. reflexivity. Qed.

(** ** Finite checks *)

(** A property of the integers of a range holds when a boolean check of
    it evaluates to true on each of them. *)
Lemma range_check (P : Z → bool) (lo n : Z) :
  forallb P (seqZ lo n) = true → ∀ d, lo <= d < lo + n → P d = true.
Proof.
  intros Hall d Hd.
  rewrite forallb_forall in Hall. apply Hall.
  apply list_elem_of_In, elem_of_seqZ. lia.
Qed.

Lemma range_check2 (P : Z → Z → bool) (lo n : Z) :
  forallb (λ a, forallb (P a) (seqZ lo n)) (seqZ lo n) = true →
  ∀ a b, lo <= a < lo + n → lo <= b < lo + n → P a b = true.
Proof.
  intros Hall a b Ha Hb.
  apply (range_check (P a) lo n); [|done].
  by apply (range_check (λ a, forallb (P a) (seqZ lo n)) lo n).
Qed.

(** ** Strings of ASCII characters *)

Lemma code_points_singletons (s : list Z) :
  Forall (λ c, is_high_surrogate c = false) s →
  code_points s = char_str <$> s.
Proof.
  induction 1 as [|c s Hc Hs IH]; [done|].
  cbn [code_points]. rewrite Hc. cbn [andb].
  destruct s as [|c' s']; [done|].
  change (char_str <$> c :: c' :: s') with ([c] :: (char_str <$> c' :: s')).
  by rewrite <- IH.
Qed.

Lemma padStart_char (s : list Z) (n : Z) (c : Z) :
  padStart s n [c] = replicate (Z.to_nat n - length s) c ++ s.
Proof.
  unfold padStart. f_equal.
  generalize (Z.to_nat n - length s)%nat as k. intros k.
  assert (concat (replicate k [c]) = replicate k c) as ->.
  { induction k as [|k IH]; [done|]. cbn. by rewrite IH. }
  rewrite take_ge; [done|]. by rewrite length_replicate.
Qed.

(** ** The lookup maps *)

Lemma position_lookup (l : list Z) (c d : Z) :
  position c l = Some d ↔
  0 <= d ∧ l !! Z.to_nat d = Some c ∧ ∀ j, (j < Z.to_nat d)%nat → l !! j ≠ Some c.
Proof.
  revert d. induction l as [|x l IH]; intros d; cbn [position].
  - split; [done|]. intros (_ & H & _). by rewrite lookup_nil in H.
  - destruct (Z.eqb_spec x c) as [->|Hne].
    + split.
      * intros [= <-]. cbn. repeat split; [lia|]. intros j Hj. lia.
      * intros (Hd & Hl & Hfirst).
        destruct (Z.to_nat d) as [|n] eqn:En; [f_equal; lia|].
        exfalso. apply (Hfirst 0%nat); [lia|done].
    + rewrite fmap_Some. setoid_rewrite IH. split.
      * intros (p & (Hp & Hl & Hfirst) & ->).
        rewrite Z2Nat.inj_succ by lia.
        repeat split; [lia|done|].
        intros [|j] Hj; cbn; [congruence|]. apply Hfirst. lia.
      * intros (Hd & Hl & Hfirst).
        destruct (Z.to_nat d) as [|n] eqn:En; cbn in Hl; [congruence|].
        exists (Z.of_nat n). rewrite Nat2Z.id.
        repeat split; [lia|done| |lia].
        intros j Hj. apply (Hfirst (S j)). lia.
Qed.

Lemma index_map_prefix (l : list Z) (n : nat) (k : list Z) (d : Z) :
  NoDup l → (n <= length l)%nat →
  foldl (λ m i, <[to_str (l !! i) := Z.of_nat i]> m) (∅ : gmap (list Z) Z)
        (seq 0 n) !! k = Some d ↔
  ∃ (i : nat) (c : Z), (i < n)%nat ∧ l !! i = Some c ∧ k = [c] ∧ d = Z.of_nat i.
Proof.
  intros Hnd. induction n as [|n IH]; intros Hn.
  - cbn. rewrite lookup_empty. split; [done|]. intros (i & c & Hi & _). lia.
  - rewrite seq_S, foldl_snoc. cbn [Nat.add].
    destruct (lookup_lt_is_Some_2 l n ltac:(lia)) as [cn Hcn].
    rewrite Hcn. cbn [to_str].
    rewrite lookup_insert_Some, (IH ltac:(lia)).
    split.
    + intros [[<- <-]|(Hne & i & c & Hi & Hl & -> & ->)].
      * exists n, cn. repeat split; [lia|done].
      * exists i, c. repeat split; [lia|done].
    + intros (i & c & Hi & Hl & -> & ->).
      destruct (decide (i = n)) as [->|Hin].
      * left. rewrite Hcn in Hl. by injection Hl as ->.
      * right. split.
        -- intros [= ->]. apply Hin. eapply NoDup_lookup; done.
        -- exists i, c. repeat split; [lia|done].
Qed.

(** The loop maps the string of each character to its position and
    holds no other key. *)
Lemma index_map_char (l : list Z) (c : Z) :
  NoDup l → index_map l !! [c] = position c l.
Proof.
  intros Hnd. apply option_eq. intros d.
  unfold index_map. rewrite index_map_prefix, position_lookup by done.
  split.
  - intros (i & c' & Hi & Hl & [= <-] & ->).
    rewrite Nat2Z.id. repeat split; [lia|done|].
    intros j Hj Hl'. assert (j = i) by (eapply NoDup_lookup; done). lia.
  - intros (Hd & Hl & _). exists (Z.to_nat d), c.
    repeat split; [|done|lia]. by eapply lookup_lt_Some.
Qed.

Lemma index_map_key (l : list Z) (k : list Z) (d : Z) :
  NoDup l → index_map l !! k = Some d → ∃ c, k = [c] ∧ position c l = Some d.
Proof.
  intros Hnd Hk. pose proof Hk as Hk'.
  unfold index_map in Hk. rewrite index_map_prefix in Hk by done.
  destruct Hk as (i & c & _ & _ & -> & _).
  exists c. split; [done|]. by rewrite <- index_map_char.
Qed.

Lemma NoDup_alphabet : NoDup alphabet.
Proof. apply (bool_decide_unpack (NoDup alphabet)). by vm_compute. Qed.

Lemma NoDup_crockford : NoDup crockford.
Proof. apply (bool_decide_unpack (NoDup crockford)). by vm_compute. Qed.

Lemma charToValue_char (c : Z) : charToValue !! [c] = position c alphabet.
Proof. apply (index_map_char alphabet), NoDup_alphabet. Qed.

Lemma charToValue_key (k : list Z) (d : Z) :
  charToValue !! k = Some d → ∃ c, k = [c] ∧ position c alphabet = Some d.
Proof. apply (index_map_key alphabet), NoDup_alphabet. Qed.

Lemma map32_char (c : Z) : map32 !! [c] = position c crockford.
Proof. apply (index_map_char crockford), NoDup_crockford. Qed.

(** ** The alphabet *)

Lemma base_60 : base = 60.
Proof. reflexivity. Qed.

Lemma symbol_facts (d : Z) :
  0 <= d < 60 →
  to_str (index alphabet d) = [symbol d] ∧
  position (symbol d) alphabet = Some d ∧
  is_high_surrogate (symbol d) = false.
Proof.
  intros Hd.
  pose proof (range_check
    (λ d, bool_decide (to_str (index alphabet d) = [symbol d]) &&
          bool_decide (position (symbol d) alphabet = Some d) &&
          negb (is_high_surrogate (symbol d))) 0 60 ltac:(by vm_compute) d Hd)
    as H.
  cbn beta in H.
  apply andb_true_iff in H as [[H1 H2]%andb_true_iff H3].
  apply bool_decide_eq_true in H1, H2. apply negb_true_iff in H3. done.
Qed.

Lemma symbols_ascii (ds : list Z) :
  digits_in 60 ds → Forall (λ c, is_high_surrogate c = false) (symbol <$> ds).
Proof.
  intros Hds. apply Forall_fmap. eapply Forall_impl; [exact Hds|].
  intros d Hd. cbn. by apply symbol_facts.
Qed.

(** ** Decoding a string of symbols *)

Lemma decode_for_symbols (ds : list Z) (acc : Z) :
  digits_in 60 ds →
  decode_for (char_str <$> (symbol <$> ds)) acc = Ok (horner_from 60 acc ds).
Proof.
  intros Hds. revert acc.
  induction Hds as [|d ds Hd _ IH]; intros acc; [done|].
  cbn [fmap list_fmap decode_for]. unfold char_str at 1.
  rewrite charToValue_char.
  destruct (symbol_facts d Hd) as (_ & -> & _).
  rewrite IH, base_60. done.
Qed.

Lemma decodeToBigInt_symbols (ds : list Z) :
  digits_in 60 ds → decodeToBigInt (symbol <$> ds) = Ok (horner 60 ds).
Proof.
  intros Hds. unfold decodeToBigInt.
  rewrite code_points_singletons by by apply symbols_ascii.
  by apply decode_for_symbols.
Qed.

(** ** Encoding *)

(** The loop of [encodeBigInt] prepends the symbols of the digits of [v],
    and ends within the fuel of one iteration per bit. *)
Lemma encode_while_digits (fuel : nat) (v : Z) (out : list Z) :
  0 <= v < 2 ^ Z.of_nat fuel →
  encode_while fuel v out = Some ((symbol <$> digits_fuel fuel 60 v []) ++ out).
Proof.
  revert v out. induction fuel as [|fuel IH]; intros v out Hv.
  - change (2 ^ Z.of_nat 0) with 1 in Hv. assert (v = 0) as -> by lia. done.
  - destruct (decide (v = 0)) as [->|Hne]; [done|].
    assert (0 < v) as Hpos by lia.
    rewrite digits_fuel_step by done.
    cbn [encode_while]. destruct (Z.ltb_spec 0 v); [|lia].
    rewrite base_60, Z.rem_mod_nonneg, Z.quot_div_nonneg by lia.
    rewrite Nat2Z.inj_succ, Z.pow_succ_r in Hv by lia.
    pose proof (Z.mod_pos_bound v 60 ltac:(lia)) as Hm.
    assert (0 <= v / 60) by (apply Z.div_pos; lia).
    pose proof (Z.div_mod v 60 ltac:(lia)).
    rewrite IH by nia.
    destruct (symbol_facts _ Hm) as (-> & _).
    by rewrite fmap_app, <- app_assoc.
Qed.

Lemma leftPad_spec (text : list Z) (w : Z) :
  leftPad text w =
  if w <? len text then Throw (EncodedLengthExceeds (len text) w)
  else Ok (replicate (Z.to_nat w - length text) (symbol 0) ++ text).
Proof.
  unfold leftPad. destruct (w <? len text); [done|].
  change (index alphabet 0) with (Some (symbol 0)). cbv iota.
  by rewrite padStart_char.
Qed.

Lemma encodeBigInt_minimal (v : Z) :
  0 <= v → encodeBigInt v None = Ok (minimal_repr v).
Proof.
  intros Hv. unfold encodeBigInt, minimal_repr.
  destruct (Z.eqb_spec v 0) as [->|Hne]; [done|].
  rewrite encode_while_digits.
  - by rewrite app_nil_r.
  - unfold encode_fuel.
    pose proof (Z.log2_spec v ltac:(lia)) as [_ Hlt].
    pose proof (Z.log2_nonneg v).
    rewrite Nat2Z.inj_succ, Z2Nat.id by lia. lia.
Qed.

Lemma encodeBigInt_pad (v w : Z) :
  0 <= v → encodeBigInt v (Some w) = leftPad (minimal_repr v) w.
Proof.
  intros Hv. pose proof (encodeBigInt_minimal v Hv) as Hmin.
  unfold encodeBigInt, minimal_repr in *.
  destruct (v =? 0); [done|].
  destruct (encode_while (encode_fuel v) v []); [|done].
  by injection Hmin as ->.
Qed.

Lemma encodeBigInt_negative (v : Z) : v < 0 → encodeBigInt v None = Ok [].
Proof.
  intros Hv. unfold encodeBigInt.
  destruct (Z.eqb_spec v 0); [lia|].
  unfold encode_fuel. cbn [encode_while].
  by destruct (Z.ltb_spec 0 v); [lia|].
Qed.

(** The minimal representation spells the digits of [v]: a non-empty
    list of digits of value [v], with a leading zero only for 0 itself. *)
Lemma minimal_repr_digits (v : Z) :
  0 <= v →
  ∃ ds, minimal_repr v = symbol <$> ds ∧ digits_in 60 ds ∧ horner 60 ds = v ∧
        ds ≠ [] ∧ (0 < v → 60 ^ (Z.of_nat (length ds) - 1) <= v).
Proof.
  intros Hv. unfold minimal_repr.
  destruct (Z.eqb_spec v 0) as [->|Hne].
  - exists [0]. repeat split; [|done|lia].
    constructor; [lia|constructor].
  - destruct (digits_spec 60 ltac:(lia) v Hv) as (Hin & Hval & Hmin & Hnn).
    exists (digits 60 v). repeat split; [done..| |done].
    apply Hnn. lia.
Qed.

(** The length of the minimal representation against a width. *)
Lemma minimal_repr_length (v : Z) (n : nat) :
  0 <= v → (0 < n)%nat →
  (length (minimal_repr v) <= n)%nat ↔ v < 60 ^ Z.of_nat n.
Proof.
  intros Hv Hn. unfold minimal_repr.
  destruct (Z.eqb_spec v 0) as [->|Hne].
  - cbn [length]. split; [|lia]. intros _. apply Z.pow_pos_nonneg; lia.
  - rewrite length_fmap. split.
    + intros Hlen.
      destruct (decide (v < 60 ^ Z.of_nat n)) as [|Hge]; [done|].
      pose proof (digits_length_lower 60 ltac:(lia) v n ltac:(lia)). lia.
    + intros Hlt. apply digits_length; lia.
Qed.

Lemma decodeToBigInt_padded (v : Z) (n : nat) :
  0 <= v →
  decodeToBigInt (replicate n (symbol 0) ++ minimal_repr v) = Ok v.
Proof.
  intros Hv.
  destruct (minimal_repr_digits v Hv) as (ds & -> & Hin & Hval & _).
  replace (replicate n (symbol 0)) with (symbol <$> replicate n 0)
    by apply fmap_replicate.
  rewrite <- fmap_app, decodeToBigInt_symbols.
  - by rewrite horner_replicate_0, Hval.
  - apply Forall_app. split; [|done].
    apply Forall_replicate. lia.
Qed.

(** ** Valid strings *)

Lemma position_elem (c : Z) (l : list Z) :
  c ∈ l ↔ ∃ d, position c l = Some d.
Proof.
  induction l as [|x l IH]; cbn [position].
  - split; [by intros ?%elem_of_nil|by intros [? ?]].
  - rewrite elem_of_cons, IH.
    destruct (Z.eqb_spec x c) as [->|Hne].
    + split; [by exists 0|by left].
    + split.
      * intros [->|[d ->]]; [done|]. by eexists.
      * intros [d Hd]. right. destruct (position c l); [by eexists|done].
Qed.

Lemma rank_symbol (c : Z) :
  c ∈ alphabet →
  position c alphabet = Some (rank c) ∧ 0 <= rank c < 60 ∧ symbol (rank c) = c.
Proof.
  intros [d Hd]%position_elem. unfold rank. rewrite Hd. cbn [default from_option id].
  apply position_lookup in Hd as (Hd0 & Hl & _).
  pose proof (lookup_lt_Some _ _ _ Hl) as Hlt.
  change (length alphabet) with 60%nat in Hlt.
  split; [done|]. split; [lia|].
  unfold symbol, index. destruct (Z.ltb_spec d 0); [lia|]. by rewrite Hl.
Qed.

Lemma symbol_elem (d : Z) : 0 <= d < 60 → symbol d ∈ alphabet.
Proof.
  intros Hd. apply position_elem. exists d. by apply symbol_facts.
Qed.

Lemma includes_hd (s : list Z) (x : Z) (p : list Z) :
  includes s (x :: p) = true → x ∈ s.
Proof.
  induction s as [|y s IH]; cbn [includes starts_with]; [done|].
  intros [[->%Z.eqb_eq _]%andb_true_iff|H]%orb_true_iff.
  - by left.
  - right. by apply IH.
Qed.

Lemma includes_char (s : list Z) (c : Z) : includes s [c] = true ↔ c ∈ s.
Proof.
  split; [apply includes_hd|].
  induction 1 as [c s|c y s _ IH]; cbn [includes starts_with].
  - rewrite Z.eqb_refl. by destruct s.
  - rewrite IH. apply orb_true_r.
Qed.

Lemma alphabet_not_surrogate (c : Z) :
  c ∈ alphabet → is_high_surrogate c = false.
Proof.
  intros Hc. destruct (rank_symbol c Hc) as (_ & Hr & <-).
  by apply symbol_facts.
Qed.

Lemma code_points_cons (c c' : Z) (s : list Z) :
  code_points (c :: c' :: s) =
  if is_high_surrogate c && is_low_surrogate c'
  then [c; c'] :: code_points s
  else [c] :: code_points (c' :: s).
Proof. reflexivity. Qed.

Lemma code_points_shape (s : list Z) : Forall is_code_point (code_points s).
Proof.
  induction s as [s IH] using (induction_ltof1 _ length).
  unfold ltof in IH.
  destruct s as [|c [|c' s']].
  - constructor.
  - repeat constructor. by exists c.
  - rewrite code_points_cons.
    destruct (is_high_surrogate c && is_low_surrogate c') eqn:E.
    + constructor.
      * right. exists c, c'. by apply andb_true_iff in E as [-> _].
      * apply IH. cbn. lia.
    + constructor; [left; by exists c|]. apply IH. cbn. lia.
Qed.

(** For a character of the iterator, [alphabet.includes(ch)] and
    [charToValue.get(ch)] agree on whether it is a symbol. *)
Lemma symbol_includes (ch : list Z) :
  is_code_point ch → includes alphabet ch = true ↔ is_symbol ch.
Proof.
  intros [[c ->]|(h & l & -> & Hh)].
  - rewrite includes_char. split; [by exists c|].
    by intros (? & [= <-] & ?).
  - split.
    + intros Hin%includes_hd%alphabet_not_surrogate. congruence.
    + by intros (? & [=] & _).
Qed.

Lemma symbol_charToValue (ch : list Z) :
  is_symbol ch ↔ ∃ d, charToValue !! ch = Some d.
Proof.
  split.
  - intros (c & -> & Hc). rewrite charToValue_char. by apply position_elem.
  - intros [d (c & -> & Hc)%charToValue_key]. exists c. split; [done|].
    apply position_elem. by exists d.
Qed.

(** One pass over the characters: either all are symbols, the validity
    scan accepts and decoding returns; or decoding throws at a character
    that is no symbol and the scan rejects. *)
Lemma decode_for_cases (chars : list (list Z)) (acc : Z) :
  Forall is_code_point chars →
  (Forall is_symbol chars ∧ isValid_for chars = true ∧
   ∃ v, decode_for chars acc = Ok v) ∨
  (∃ ch, ch ∈ chars ∧ ¬ is_symbol ch ∧ isValid_for chars = false ∧
         decode_for chars acc = Throw (InvalidCharacter ch)).
Proof.
  intros Hcp. revert acc.
  induction Hcp as [|ch chars Hch _ IH]; intros acc.
  - left. split_and!; [constructor|done|by exists acc].
  - cbn [decode_for isValid_for].
    destruct (charToValue !! ch) as [d|] eqn:Ed.
    + assert (is_symbol ch) as Hs by (apply symbol_charToValue; by exists d).
      rewrite (proj2 (symbol_includes ch Hch) Hs). cbn [negb].
      destruct (IH (acc * base + d)) as [(Hall & Hv & Hd)|(c & Hc & Hn & Hv & Hd)].
      * left. split_and!; [by constructor|done..].
      * right. exists c. split_and!; [by right|done..].
    + assert (¬ is_symbol ch) as Hs.
      { intros [d Hd]%symbol_charToValue. congruence. }
      right. exists ch. split_and!; [by left|done| |done].
      destruct (includes alphabet ch) eqn:Ei; [|done].
      exfalso. by apply Hs, symbol_includes.
Qed.

(** A valid string spells a list of digits, the ranks of its symbols. *)
Lemma valid_symbols (s : list Z) :
  isValidBase60 s = true →
  s = symbol <$> (rank <$> s) ∧ digits_in 60 (rank <$> s).
Proof.
  unfold isValidBase60. revert s.
  assert (∀ chars, isValid_for chars = true → Forall is_code_point chars →
                   Forall is_symbol chars) as Hsym.
  { intros chars Hv Hcp.
    destruct (decode_for_cases chars 0 Hcp) as [(H & _)|(? & _ & _ & H & _)];
      [done|congruence]. }
  induction s as [s IH] using (induction_ltof1 _ length). unfold ltof in IH.
  intros Hv. pose proof (Hsym _ Hv (code_points_shape s)) as Hall.
  destruct s as [|c [|c' s']]; [by split; [|constructor]| |].
  - cbn in Hall. apply Forall_cons in Hall as [(? & [= <-] & Hc) _].
    destruct (rank_symbol c Hc) as (_ & Hr & He).
    rewrite !fmap_cons, He. split; [done|]. constructor; [done|constructor].
  - rewrite code_points_cons in Hv, Hall.
    destruct (is_high_surrogate c && is_low_surrogate c').
    + apply Forall_cons in Hall as [(? & [=] & _) _].
    + apply Forall_cons in Hall as [(? & [= <-] & Hc) _].
      cbn [isValid_for] in Hv.
      destruct (includes alphabet [c]); [|done]. cbn [negb] in Hv.
      destruct (IH (c' :: s') ltac:(cbn; lia) Hv) as [Heq Hin].
      destruct (rank_symbol c Hc) as (_ & Hr & He).
      split.
      * rewrite !fmap_cons, He. f_equal. exact Heq.
      * rewrite fmap_cons. by constructor.
Qed.

Lemma symbols_valid (ds : list Z) :
  digits_in 60 ds → isValidBase60 (symbol <$> ds) = true.
Proof.
  intros Hds. unfold isValidBase60.
  rewrite code_points_singletons by by apply symbols_ascii.
  induction Hds as [|d ds Hd _ IH]; [done|].
  cbn [fmap list_fmap isValid_for]. unfold char_str at 1.
  rewrite (proj2 (includes_char alphabet (symbol d))) by by apply symbol_elem.
  exact IH.
Qed.

Lemma decodeToBigInt_valid (s : list Z) (v : Z) :
  decodeToBigInt s = Ok v →
  isValidBase60 s = true ∧ v = horner 60 (rank <$> s).
Proof.
  intros Hd.
  assert (isValidBase60 s = true) as Hv.
  { unfold decodeToBigInt, isValidBase60 in *.
    destruct (decode_for_cases (code_points s) 0 (code_points_shape s))
      as [(_ & H & _)|(? & _ & _ & _ & H)]; [done|congruence]. }
  split; [done|].
  destruct (valid_symbols s Hv) as [Heq Hin].
  rewrite Heq, decodeToBigInt_symbols in Hd by done. by injection Hd.
Qed.

Lemma minimal_repr_is_minimal (v : Z) : 0 <= v → is_minimal_repr v (minimal_repr v).
Proof.
  intros Hv. split_and!.
  - destruct (minimal_repr_digits v Hv) as (ds & -> & _ & _ & Hnn & _).
    by destruct ds.
  - apply (decodeToBigInt_padded v 0 Hv).
  - intros s Hs [Hvalid ->]%decodeToBigInt_valid.
    destruct (valid_symbols s Hvalid) as [_ Hin].
    apply minimal_repr_length; [done|destruct s; [done|cbn; lia]|].
    pose proof (horner_bounds 60 ltac:(lia) _ Hin) as Hb.
    rewrite length_fmap in Hb. lia.
Qed.

Lemma is_minimal_repr_unique (v : Z) (m1 m2 : list Z) :
  is_minimal_repr v m1 → is_minimal_repr v m2 → m1 = m2.
Proof.
  intros (Hn1 & Hd1 & Hm1) (Hn2 & Hd2 & Hm2).
  pose proof (Hm1 _ Hn2 Hd2). pose proof (Hm2 _ Hn1 Hd1).
  apply decodeToBigInt_valid in Hd1 as [Hv1 He1], Hd2 as [Hv2 He2].
  destruct (valid_symbols _ Hv1) as [Heq1 Hin1].
  destruct (valid_symbols _ Hv2) as [Heq2 Hin2].
  rewrite Heq1, Heq2.
  f_equal. apply (horner_inj 60); [lia| |done..|congruence].
  rewrite !length_fmap. lia.
Qed.

(** ** Integers: round trip, widths, domain *)

(** C1. For every non-negative integer [v], [encodeBigInt(v)] returns a
    string and [decodeToBigInt] of that string returns [v], at any
    magnitude. *)
Theorem encodeBigInt_decodeToBigInt_roundtrip (v : Z) :
  0 <= v →
  ∃ s, encodeBigInt v None = Ok s ∧ decodeToBigInt s = Ok v.
Proof.
  intros Hv. exists (minimal_repr v). split.
  - by apply encodeBigInt_minimal.
  - by apply (decodeToBigInt_padded v 0).
Qed.

Lemma encodeBigInt_decodeToBigInt_roundtrip_witness :
  0 <= 2 ^ 200 - 1 ∧
  ∃ s, encodeBigInt (2 ^ 200 - 1) None = Ok s ∧ decodeToBigInt s = Ok (2 ^ 200 - 1).
Proof.
  split; [lia|].
  apply (encodeBigInt_decodeToBigInt_roundtrip (2 ^ 200 - 1)). lia.
Defined.

(** C6. A negative integer is not rejected: the loop of [encodeBigInt]
    does not run, so [encodeBigInt(-5n)] returns the empty string and
    [encodeInt64(-5n)] returns eleven zero symbols, while [bigIntToBytes]
    does throw on the same value. *)
Theorem encodeBigInt_negative_not_rejected :
  encodeBigInt (-5) None = Ok [] ∧
  encodeInt64 (-5) = Ok (lit "00000000000") ∧
  bigIntToBytes (-5) None = Throw NegativeBigInt.
Proof. by vm_compute. Qed.

(** C7. For a non-negative integer [v] and a target width [w]:
    [encodeBigInt(v)] returns the minimal representation [m] of [v]; when
    [m] has at most [w] characters [encodeBigInt(v, w)] returns [m] padded
    on the left with the zero symbol to exactly [w] characters; when [m]
    is longer than [w] it throws the error of [leftPad]. *)
Theorem encodeBigInt_target_width (v w : Z) :
  0 <= v →
  let m := minimal_repr v in
  is_minimal_repr v m ∧
  encodeBigInt v None = Ok m ∧
  (len m <= w →
   encodeBigInt v (Some w) = Ok (replicate (Z.to_nat (w - len m)) (symbol 0) ++ m) ∧
   len (replicate (Z.to_nat (w - len m)) (symbol 0) ++ m) = w) ∧
  (w < len m →
   encodeBigInt v (Some w) = Throw (EncodedLengthExceeds (len m) w)).
Proof.
  intros Hv m. split_and!.
  - by apply minimal_repr_is_minimal.
  - by apply encodeBigInt_minimal.
  - intros Hw. rewrite encodeBigInt_pad, leftPad_spec by done. fold m.
    destruct (Z.ltb_spec w (len m)); [lia|].
    unfold len in *.
    replace (Z.to_nat w - length m)%nat
      with (Z.to_nat (w - Z.of_nat (length m))) by lia.
    split; [done|].
    rewrite length_app, length_replicate. lia.
  - intros Hw. rewrite encodeBigInt_pad, leftPad_spec by done. fold m.
    by destruct (Z.ltb_spec w (len m)); [|lia].
Qed.

Lemma encodeBigInt_target_width_witness :
  0 <= 123 ∧
  encodeBigInt 123 (Some 5) = Ok (lit "00023") ∧
  encodeBigInt 123 (Some 1) = Throw (EncodedLengthExceeds 2 1).
Proof.
  split; [lia|].
  destruct (encodeBigInt_target_width 123 5 ltac:(lia)) as (_ & _ & H5 & _).
  destruct (encodeBigInt_target_width 123 1 ltac:(lia)) as (_ & _ & _ & H1).
  split.
  - apply H5. vm_compute. discriminate.
  - apply H1. reflexivity.
Defined.

(** C10. [encodeInt64] checks no 64-bit range: every [v] from 0 below
    60^11 is encoded to 11 characters that [decodeInt64] maps back to [v],
    the call throws from 60^11 on, and 2^64 lies below 60^11. *)
Theorem encodeInt64_no_range_check (v : Z) :
  0 <= v →
  (v < 60 ^ 11 →
   ∃ s, encodeInt64 v = Ok s ∧ len s = 11 ∧ decodeInt64 s = Ok v) ∧
  (60 ^ 11 <= v → ∃ e, encodeInt64 v = Throw e) ∧
  2 ^ 64 < 60 ^ 11.
Proof.
  intros Hv.
  pose proof (minimal_repr_length v 11 Hv ltac:(lia)) as Hlen.
  unfold encodeInt64. rewrite encodeBigInt_minimal by done.
  rewrite ?bind_Ok. rewrite leftPad_spec.
  unfold FIXED_LEN_INT64, len.
  split_and!; [| |done].
  - intros Hlt. apply Hlen in Hlt.
    destruct (Z.ltb_spec 11 (Z.of_nat (length (minimal_repr v)))); [lia|].
    eexists. split; [done|].
    assert (len (replicate (Z.to_nat 11 - length (minimal_repr v)) (symbol 0)
                 ++ minimal_repr v) = 11) as Hl.
    { unfold len. rewrite length_app, length_replicate. lia. }
    split; [exact Hl|].
    unfold decodeInt64. rewrite Hl. cbn [Z.eqb Pos.eqb negb FIXED_LEN_INT64].
    by apply decodeToBigInt_padded.
  - intros Hge.
    destruct (Z.ltb_spec 11 (Z.of_nat (length (minimal_repr v)))) as [|Hle].
    + by eexists.
    + exfalso. assert (v < 60 ^ Z.of_nat 11) by (apply Hlen; lia). lia.
Qed.

Lemma encodeInt64_no_range_check_witness :
  0 <= 2 ^ 64 ∧
  ∃ s, encodeInt64 (2 ^ 64) = Ok s ∧ len s = 11 ∧ decodeInt64 s = Ok (2 ^ 64).
Proof.
  split; [lia|].
  destruct (encodeInt64_no_range_check (2 ^ 64) ltac:(lia)) as (H & _).
  apply H. reflexivity.
Defined.

(** ** Validation and ordering *)

(** C8. [decodeToBigInt(text)] throws the invalid-character error exactly
    when some character of [text] is not an alphabet symbol, the error
    names such a character of [text], and [decodeToBigInt] returns exactly
    on the strings [isValidBase60] accepts, those whose characters are all
    alphabet symbols; the empty string is one of them. *)
Theorem decodeToBigInt_fails_iff_invalid (text : list Z) :
  ((∃ ch, decodeToBigInt text = Throw (InvalidCharacter ch)) ↔
   (∃ ch, ch ∈ code_points text ∧ ¬ is_symbol ch)) ∧
  (∀ ch, decodeToBigInt text = Throw (InvalidCharacter ch) →
         ch ∈ code_points text ∧ ¬ is_symbol ch) ∧
  ((∃ v, decodeToBigInt text = Ok v) ↔ isValidBase60 text = true) ∧
  (isValidBase60 text = true ↔ Forall is_symbol (code_points text)) ∧
  isValidBase60 [] = true.
Proof.
  unfold decodeToBigInt, isValidBase60.
  destruct (decode_for_cases (code_points text) 0 (code_points_shape text))
    as [(Hall & Hv & v & Hd)|(ch & Hin & Hns & Hv & Hd)].
  - rewrite Hd, Hv. split_and!; try done.
    + split; [by intros [? ?]|].
      intros (ch & Hin & Hns). exfalso. apply Hns.
      by eapply Forall_forall in Hall.
    + split; [done|]. by exists v.
  - rewrite Hd, Hv. split_and!; try done.
    + split; [|by exists ch]. by exists ch.
    + by intros ? [= <-].
    + split; [by intros [? ?]|done].
    + split; [done|]. intros Hall. exfalso. apply Hns.
      by eapply Forall_forall in Hall.
Qed.

Lemma lex_compare_ranks (a b : list Z) :
  length a = length b →
  digits_in 60 (rank <$> a) → digits_in 60 (rank <$> b) →
  lex_compare a b =
  match horner 60 (rank <$> a) ?= horner 60 (rank <$> b) with
  | Lt => -1
  | Eq => 0
  | Gt => 1
  end.
Proof.
  revert b. induction a as [|x a IH]; intros [|y b] Hlen Ha Hb;
    try discriminate; [done|].
  injection Hlen as Hlen. rewrite !fmap_cons in *.
  rewrite (horner_compare_cons 60) by (done || lia || by rewrite !length_fmap).
  cbn [lex_compare].
  apply Forall_cons in Ha as [_ Ha], Hb as [_ Hb].
  destruct (rank x ?= rank y); [by apply IH|done..].
Qed.

(** C9. For two valid strings of one length, [compareAsBigInt] returns
    their lexicographic comparison under the order of the alphabet's
    symbols. *)
Theorem compareAsBigInt_lexicographic (a b : list Z) :
  isValidBase60 a = true → isValidBase60 b = true → length a = length b →
  compareAsBigInt a b = Ok (lex_compare a b).
Proof.
  intros Ha Hb Hlen.
  destruct (valid_symbols a Ha) as [Hea Hia].
  destruct (valid_symbols b Hb) as [Heb Hib].
  rewrite (lex_compare_ranks a b) by done.
  unfold compareAsBigInt.
  rewrite Hea, Heb, !decodeToBigInt_symbols by done.
  rewrite <- Hea, <- Heb. rewrite ?bind_Ok.
  destruct (Z.compare_spec (horner 60 (rank <$> a)) (horner 60 (rank <$> b)))
    as [He|Hl|Hg].
  - rewrite He, Z.ltb_irrefl. done.
  - by destruct (Z.ltb_spec (horner 60 (rank <$> a)) (horner 60 (rank <$> b)));
      [|lia].
  - destruct (Z.ltb_spec (horner 60 (rank <$> a)) (horner 60 (rank <$> b)));
      [lia|].
    by destruct (Z.ltb_spec (horner 60 (rank <$> b)) (horner 60 (rank <$> a)));
      [|lia].
Qed.

Lemma compareAsBigInt_lexicographic_witness :
  isValidBase60 (lit "Az9") = true ∧ isValidBase60 (lit "B00") = true ∧
  length (lit "Az9") = length (lit "B00") ∧
  compareAsBigInt (lit "Az9") (lit "B00") = Ok (lex_compare (lit "Az9") (lit "B00")) ∧
  lex_compare (lit "Az9") (lit "B00") = -1.
Proof.
  split; [reflexivity|]. split; [reflexivity|]. split; [reflexivity|].
  split; [|reflexivity].
  apply (compareAsBigInt_lexicographic (lit "Az9") (lit "B00"));
    reflexivity.
Defined.

(** The order of the symbols in the alphabet is the order of their code
    units, so the lexicographic order above is that of the strings. *)
Lemma rank_code_unit_order (x y : Z) :
  x ∈ alphabet → y ∈ alphabet → (rank x ?= rank y) = (x ?= y).
Proof.
  intros (_ & Hx & Hsx)%rank_symbol (_ & Hy & Hsy)%rank_symbol.
  pose proof (range_check2
    (λ d e, bool_decide ((d ?= e) = (symbol d ?= symbol e)))
    0 60 ltac:(by vm_compute) (rank x) (rank y) Hx Hy) as H.
  apply bool_decide_eq_true in H. by rewrite Hsx, Hsy in H.
Qed.

(** ** Digit strings of the built-ins *)

Lemma digits_from_chars (fuel : nat) (r v : Z) (acc : list Z) :
  digits_from fuel r v (digit_char <$> acc) =
  digit_char <$> digits_fuel fuel r v acc.
Proof.
  revert v acc. induction fuel as [|fuel IH]; intros v acc; [done|].
  cbn [digits_from digits_fuel]. destruct (v <=? 0); [done|].
  by rewrite <- IH.
Qed.

(** [v.toString(r)] spells the digits of a non-negative [v]: a non-empty
    digit list of value [v], with a leading zero only for 0 itself. *)
Lemma toString_digits (r v : Z) :
  1 < r → 0 <= v →
  ∃ ds, toString v r = digit_char <$> ds ∧ digits_in r ds ∧ horner r ds = v ∧
        ds ≠ [] ∧
        ∀ n, (0 < n)%nat → v < r ^ Z.of_nat n → (length ds <= n)%nat.
Proof.
  intros Hr Hv. unfold toString.
  destruct (Z.eqb_spec v 0) as [->|Hne].
  - exists [0]. split_and!; [done| |done|done|cbn; lia].
    constructor; [lia|constructor].
  - destruct (Z.ltb_spec v 0); [lia|].
    destruct (digits_spec r Hr v Hv) as (Hin & Hval & Hmin & Hnn).
    exists (digits r v). split_and!; [|done|done| |].
    + apply (digits_from_chars _ r v []).
    + apply Hnn. lia.
    + intros n _ Hlt. apply digits_length; lia.
Qed.

Lemma digit_char_facts (r d : Z) :
  r <= 36 → 0 <= d < r →
  digit_value r (digit_char d) = Some d ∧
  is_white_space (digit_char d) = false ∧
  digit_char d ≠ 45 ∧ digit_char d ≠ 43 ∧ digit_char d ≠ 88 ∧
  (r <= 16 → digit_char d ≠ 120).
Proof.
  intros Hr Hd.
  assert (digit_value r (digit_char d) = Some d) as Hdv.
  { unfold digit_value, digit_char.
    destruct (Z.ltb_spec d 10).
    - destruct (Z.leb_spec 48 (48 + d)); [|lia].
      destruct (Z.leb_spec (48 + d) 57); [|lia]. cbn [andb].
      replace (48 + d - 48) with d by lia.
      by destruct (Z.ltb_spec d r); [|lia].
    - destruct (Z.leb_spec 48 (87 + d)); [|lia].
      destruct (Z.leb_spec (87 + d) 57); [lia|]. cbn [andb].
      destruct (Z.leb_spec 97 (87 + d)); [|lia].
      destruct (Z.leb_spec (87 + d) 122); [|lia]. cbn [andb].
      replace (87 + d - 87) with d by lia.
      by destruct (Z.ltb_spec d r); [|lia]. }
  assert (48 <= digit_char d <= 57 ∨ 97 <= digit_char d <= 122) as Hrange.
  { unfold digit_char. destruct (Z.ltb_spec d 10); lia. }
  assert (r <= 16 → digit_char d <= 102) as Hhex.
  { unfold digit_char. destruct (Z.ltb_spec d 10); lia. }
  split_and!; [done| |lia..].
  unfold is_white_space.
  repeat match goal with
         | |- context [?x =? ?y] => rewrite (proj2 (Z.eqb_neq x y)) by lia
         | |- context [?x <=? ?y] =>
             first [ rewrite (proj2 (Z.leb_gt x y)) by lia
                   | rewrite (proj2 (Z.leb_le x y)) by lia ]
         end.
  done.
Qed.

Lemma parse_digits_chars (r : Z) (ds : list Z) (a : Z) :
  r <= 36 → digits_in r ds →
  parse_digits r (digit_char <$> ds) (Some a) = Some (horner_from r a ds).
Proof.
  intros Hr Hds. revert a.
  induction Hds as [|d ds Hd _ IH]; intros a; [done|].
  cbn [fmap list_fmap parse_digits].
  destruct (digit_char_facts r d Hr Hd) as (-> & _).
  by rewrite IH.
Qed.

(** [parseInt] of a non-empty string of digits is their value. *)
Lemma parseInt_digits (r : Z) (ds : list Z) :
  r <= 36 → digits_in r ds → ds ≠ [] →
  parseInt (digit_char <$> ds) r = Some (horner r ds).
Proof.
  intros Hr Hds Hnn. destruct Hds as [|d ds Hd Hds]; [done|].
  destruct (digit_char_facts r d Hr Hd) as (Hdv & Hws & H45 & H43 & H88 & H120).
  unfold parseInt. cbn [fmap list_fmap trim_start]. rewrite Hws.
  destruct (Z.eqb_spec (digit_char d) 45); [done|].
  destruct (Z.eqb_spec (digit_char d) 43); [done|].
  assert ((if r =? 16
           then match digit_char d :: (digit_char <$> ds) with
                | c :: x :: r0 =>
                    if (c =? 48) && ((x =? 120) || (x =? 88))
                    then r0 else digit_char d :: (digit_char <$> ds)
                | _ => digit_char d :: (digit_char <$> ds)
                end
           else digit_char d :: (digit_char <$> ds))
          = digit_char d :: (digit_char <$> ds)) as ->.
  { destruct (Z.eqb_spec r 16) as [->|]; [|done].
    destruct Hds as [|d' ds' Hd' _]; [done|]. cbn [fmap list_fmap].
    destruct (digit_char_facts 16 d' ltac:(lia) Hd') as (_ & _ & _ & _ & ? & ?).
    destruct (Z.eqb_spec (digit_char d') 120); [lia|].
    destruct (Z.eqb_spec (digit_char d') 88); [lia|].
    by rewrite andb_false_r. }
  cbn [parse_digits]. rewrite Hdv. cbn [default from_option id].
  rewrite parse_digits_chars by done. cbn [fmap option_fmap option_map].
  f_equal. unfold horner. cbn [horner_from foldl].
  rewrite Z.mul_1_l. done.
Qed.

(** ** Regrouping digits *)

(** Cutting a list of [n] groups of [k] digits of radix [b] at the
    positions [i * k] yields the digits of the same value in radix [b^k]. *)
Lemma horner_chunks (b : Z) (k n : nat) (l : list Z) :
  1 < b → (0 < k)%nat → length l = (n * k)%nat →
  horner (b ^ Z.of_nat k)
         ((λ i, horner b (take k (drop (i * k) l))) <$> seq 0 n) =
  horner b l.
Proof.
  intros Hb Hk. revert l. induction n as [|n IH]; intros l Hlen.
  - destruct l; [done|discriminate].
  - cbn [seq]. rewrite fmap_cons, <- fmap_S_seq, <- list_fmap_compose.
    assert (1 < b ^ Z.of_nat k) as Hbk by (apply Z.pow_gt_1; lia).
    rewrite horner_cons by done.
    rewrite length_fmap, length_seq.
    assert ((λ i, horner b (take k (drop (i * k) l))) ∘ S <$> seq 0 n
            = (λ i, horner b (take k (drop (i * k) (drop k l)))) <$> seq 0 n)
      as ->.
    { apply list_fmap_ext. intros i x _. cbn.
      by rewrite drop_drop. }
    rewrite (IH (drop k l)) by (rewrite length_drop; lia).
    rewrite <- (take_drop k l) at 3.
    rewrite horner_app by done.
    rewrite length_drop, Hlen.
    replace (S n * k - k)%nat with (k * n)%nat by lia.
    rewrite Nat2Z.inj_mul, Z.pow_mul_r by lia.
    done.
Qed.

Lemma chunks_in (b : Z) (k n : nat) (l : list Z) :
  1 < b → digits_in b l → length l = (n * k)%nat →
  digits_in (b ^ Z.of_nat k)
            ((λ i, horner b (take k (drop (i * k) l))) <$> seq 0 n).
Proof.
  intros Hb Hl Hlen. apply Forall_fmap, Forall_forall. intros i Hi%elem_of_seq.
  cbn.
  assert (digits_in b (take k (drop (i * k) l))) as Hin
      by by apply Forall_take, Forall_drop.
  pose proof (horner_bounds b Hb _ Hin) as Hbd.
  rewrite length_take, length_drop in Hbd.
  replace (k `min` (length l - i * k))%nat with k in Hbd by nia.
  done.
Qed.

(** ** Integers as bytes *)

(** Below [256^n], [bigIntToBytes(v, n)] returns the [n] big-endian
    bytes of [v]. *)
Lemma bigIntToBytes_fixed (v : Z) (n : nat) :
  (0 < n)%nat → 0 <= v < 256 ^ Z.of_nat n →
  ∃ bs, bigIntToBytes v (Some (Z.of_nat n)) = Ok bs ∧ length bs = n ∧
        digits_in 256 bs ∧ horner 256 bs = v.
Proof.
  intros Hn [Hv Hlt]. unfold bigIntToBytes.
  destruct (Z.ltb_spec v 0); [lia|].
  destruct (toString_digits 16 v ltac:(lia) Hv)
    as (ds0 & -> & Hin0 & Hval0 & Hnn0 & Hlen0).
  rewrite length_fmap.
  (* the digits after the leading "0" of an odd-length string *)
  assert (∃ ds m,
    (if Z.of_nat (length ds0) mod 2 =? 1
     then lit "0" ++ (digit_char <$> ds0) else digit_char <$> ds0)
    = digit_char <$> ds ∧ digits_in 16 ds ∧ horner 16 ds = v ∧
    length ds = (m * 2)%nat ∧ (0 < m <= n)%nat)
    as (ds & m & -> & Hin & Hval & Hlen & Hm).
  { assert (length ds0 <= 2 * n)%nat as Hle.
    { apply Hlen0; [lia|].
      rewrite Nat2Z.inj_mul, Z.pow_mul_r by lia. done. }
    assert (0 < length ds0)%nat by (destruct ds0; [done|cbn; lia]).
    pose proof (Z.div_mod (Z.of_nat (length ds0)) 2 ltac:(lia)) as Hdm.
    pose proof (Z.mod_pos_bound (Z.of_nat (length ds0)) 2 ltac:(lia)) as Hmb.
    destruct (Z.eqb_spec (Z.of_nat (length ds0) mod 2) 1) as [Hodd|Heven].
    - exists (0 :: ds0), (Z.to_nat (Z.of_nat (length ds0) / 2) + 1)%nat.
      split_and!; [done| | |cbn [length]; lia|lia|lia].
      + constructor; [lia|done].
      + rewrite horner_cons by lia. lia.
    - exists ds0, (Z.to_nat (Z.of_nat (length ds0) / 2)).
      split_and!; [done..|lia|lia|lia]. }
  rewrite length_fmap, Hlen, Nat.div_mul by lia. unfold hex_to_bytes.
  assert ((λ i, toUint8 (parseInt (substr (digit_char <$> ds) (i * 2) 2) 16))
            <$> seq 0 m
          = (λ i, horner 16 (take 2 (drop (i * 2) ds))) <$> seq 0 m) as ->.
  { apply list_fmap_ext. intros i ? Hi.
    apply lookup_seq in Hi as [-> Hi]. cbn [Nat.add].
    unfold substr. rewrite <- fmap_drop, <- fmap_take.
    assert (digits_in 16 (take 2 (drop (i * 2) ds))) as Hin'
        by by apply Forall_take, Forall_drop.
    assert (length (take 2 (drop (i * 2) ds)) = 2%nat) as Hl2
        by (rewrite length_take, length_drop; lia).
    rewrite parseInt_digits; [|lia|done|by intros Heq; rewrite Heq in Hl2].
    pose proof (horner_bounds 16 ltac:(lia) _ Hin') as Hbd.
    rewrite Hl2 in Hbd. cbn [toUint8]. apply Z.mod_small.
    change (16 ^ Z.of_nat 2) with 256 in Hbd. lia. }
  pose proof (horner_chunks 16 2 m ds ltac:(lia) ltac:(lia) Hlen) as Hval'.
  pose proof (chunks_in 16 2 m ds ltac:(lia) Hin Hlen) as Hin'.
  change (16 ^ Z.of_nat 2) with 256 in Hval', Hin'.
  set (bytes := (λ i, horner 16 (take 2 (drop (i * 2) ds))) <$> seq 0 m) in *.
  assert (length bytes = m) as Hbl
      by (subst bytes; by rewrite length_fmap, length_seq).
  unfold len. rewrite Hbl.
  destruct (Z.ltb_spec (Z.of_nat n) (Z.of_nat m)); [lia|].
  eexists. split; [done|]. split_and!.
  - rewrite length_app, length_replicate. lia.
  - apply Forall_app. split; [|done]. apply Forall_replicate. lia.
  - rewrite horner_replicate_0 by lia. congruence.
Qed.

Lemma bytesToBigInt_horner (bytes : list Z) :
  bytesToBigInt bytes = horner 256 bytes.
Proof.
  unfold bytesToBigInt, horner, horner_from. generalize 0.
  induction bytes as [|b bytes IH]; intros acc; [done|].
  cbn [foldl]. rewrite IH, Z.shiftl_mul_pow2 by lia. done.
Qed.

Lemma hex_to_bytes_in (hex : list Z) (n : nat) :
  length (hex_to_bytes hex n) = n ∧ digits_in 256 (hex_to_bytes hex n).
Proof.
  unfold hex_to_bytes. split; [by rewrite length_fmap, length_seq|].
  apply Forall_fmap, Forall_forall. intros i _. cbn.
  destruct (parseInt _ 16) as [x|]; cbn [toUint8]; [|lia].
  apply Z.mod_pos_bound. lia.
Qed.

Lemma hex_to_bytes_cons (a b : Z) (hex : list Z) (n : nat) :
  hex_to_bytes (a :: b :: hex) (S n) =
  toUint8 (parseInt [a; b] 16) :: hex_to_bytes hex n.
Proof.
  unfold hex_to_bytes. cbn [seq].
  rewrite fmap_cons, <- fmap_S_seq, <- list_fmap_compose. done.
Qed.

(** ** Fixed-width strings *)

(** Below [60^w] the value is encoded to exactly [w] characters, which
    decode to it. *)
Lemma encode_fixed_width (v : Z) (w : nat) :
  (0 < w)%nat → 0 <= v < 60 ^ Z.of_nat w →
  ∃ s, (s ← encodeBigInt v None; leftPad s (Z.of_nat w)) = Ok s ∧
       length s = w ∧ decodeToBigInt s = Ok v.
Proof.
  intros Hw [Hv Hlt].
  rewrite encodeBigInt_minimal by done. rewrite ?bind_Ok.
  rewrite leftPad_spec. unfold len.
  apply (minimal_repr_length v w Hv Hw) in Hlt.
  destruct (Z.ltb_spec (Z.of_nat w) (Z.of_nat (length (minimal_repr v))));
    [lia|].
  eexists. split; [done|]. split.
  - rewrite length_app, length_replicate. lia.
  - by apply decodeToBigInt_padded.
Qed.

(** ** UUID text *)

Lemma is_hex_range (c : Z) : is_hex c = true → 48 <= c < 48 + 55.
Proof.
  unfold is_hex.
  repeat match goal with
         | |- context [?x <=? ?y] => destruct (Z.leb_spec x y)
         end; cbn; (done || lia).
Qed.

(** Two hexadecimal digits in either case make a byte whose two-digit
    hexadecimal text is the two digits in lower case. *)
Lemma hex_pair_facts (a b : Z) :
  is_hex a = true → is_hex b = true →
  padStart (toString (toUint8 (parseInt [a; b] 16)) 16) 2 (lit "0")
  = [ascii_lower a; ascii_lower b] ∧
  toUint8 (parseInt [ascii_lower a; ascii_lower b] 16)
  = toUint8 (parseInt [a; b] 16) ∧
  is_hex (ascii_lower a) = true.
Proof.
  intros Ha Hb.
  pose proof (range_check2
    (λ a b, implb (is_hex a && is_hex b)
      (bool_decide
         (padStart (toString (toUint8 (parseInt [a; b] 16)) 16) 2 (lit "0")
          = [ascii_lower a; ascii_lower b]) &&
       bool_decide (toUint8 (parseInt [ascii_lower a; ascii_lower b] 16)
                    = toUint8 (parseInt [a; b] 16)) &&
       is_hex (ascii_lower a)))
    48 55 ltac:(by vm_compute) a b (is_hex_range a Ha) (is_hex_range b Hb)) as H.
  cbn beta in H. rewrite Ha, Hb in H. cbn [andb implb] in H.
  apply andb_true_iff in H as [[H1 H2]%andb_true_iff H3].
  apply bool_decide_eq_true in H1, H2. done.
Qed.

Lemma hex_bytes_text (hex : list Z) (n : nat) :
  length hex = (n * 2)%nat → forallb is_hex hex = true →
  concat ((λ b, padStart (toString b 16) 2 (lit "0")) <$> hex_to_bytes hex n)
  = toLowerCase hex ∧
  hex_to_bytes (toLowerCase hex) n = hex_to_bytes hex n ∧
  forallb is_hex (toLowerCase hex) = true.
Proof.
  revert hex. induction n as [|n IH]; intros hex Hlen Hhex.
  - by destruct hex.
  - destruct hex as [|a [|b hex]]; [done..|].
    injection Hlen as Hlen. cbn [forallb] in Hhex.
    apply andb_true_iff in Hhex as [Ha [Hb Hhex]%andb_true_iff].
    destruct (IH hex Hlen Hhex) as (IH1 & IH2 & IH3).
    destruct (hex_pair_facts a b Ha Hb) as (H1 & H2 & H3).
    destruct (hex_pair_facts b a Hb Ha) as (_ & _ & H4).
    unfold toLowerCase in *. rewrite !fmap_cons, !hex_to_bytes_cons.
    rewrite fmap_cons. cbn [concat forallb]. rewrite H1, H2, H3, H4, IH1, IH2, IH3.
    done.
Qed.

Lemma is_hex_not_hyphen (c : Z) : is_hex c = true → c ≠ 45.
Proof. intros H%is_hex_range. lia. Qed.

Lemma remove_hyphens_hex (hex : list Z) :
  forallb is_hex hex = true → remove_hyphens hex = hex.
Proof.
  unfold remove_hyphens. induction hex as [|c hex IH]; [done|].
  cbn [forallb]. intros [Hc Hhex]%andb_true_iff.
  rewrite filter_cons_True by by apply is_hex_not_hyphen.
  by rewrite IH.
Qed.

(** A UUID text is its 32 hexadecimal digits with the hyphens inserted. *)
Lemma uuid_shape (u : list Z) :
  is_uuid u = true →
  ∃ hex, length hex = 32%nat ∧ forallb is_hex hex = true ∧
         u = hyphenate hex ∧ remove_hyphens u = hex.
Proof.
  unfold is_uuid. rewrite !andb_true_iff, !bool_decide_eq_true, Nat.eqb_eq.
  intros Hu. destruct_and!.
  exists (slice u 0 8 ++ slice u 9 13 ++ slice u 14 18 ++ slice u 19 23 ++
          slice u 24 36).
  assert (u = slice u 0 8 ++ lit "-" ++ slice u 9 13 ++ lit "-" ++
              slice u 14 18 ++ lit "-" ++ slice u 19 23 ++ lit "-" ++
              slice u 24 36) as Hsplit.
  { assert (u = slice u 0 8 ++ slice u 8 9 ++ slice u 9 13 ++ slice u 13 14 ++
                slice u 14 18 ++ slice u 18 19 ++ slice u 19 23 ++
                slice u 23 24 ++ slice u 24 36) as Hcut.
    { unfold slice. cbn [Nat.sub].
      do 36 (destruct u as [|? u]; [done|]). by destruct u. }
    repeat match goal with
           | H : slice _ _ _ = lit "-" |- _ => rewrite H in Hcut; clear H
           end.
    exact Hcut. }
  split_and!.
  - unfold slice. cbn [Nat.sub].
    do 36 (destruct u as [|? u]; [done|]). by destruct u.
  - by rewrite !forallb_app, !andb_true_iff.
  - rewrite Hsplit at 1.
    unfold hyphenate, slice, slice_from. cbn [Nat.sub].
    do 36 (destruct u as [|? u]; [done|]). by destruct u.
  - rewrite Hsplit at 1. unfold remove_hyphens.
    rewrite !filter_app.
    change (filter (λ c, c ≠ 45) (lit "-")) with (@nil Z).
    fold (remove_hyphens (slice u 0 8)) (remove_hyphens (slice u 9 13))
         (remove_hyphens (slice u 14 18)) (remove_hyphens (slice u 19 23))
         (remove_hyphens (slice u 24 36)).
    by rewrite !remove_hyphens_hex.
Qed.

Lemma hyphenate_facts (hex : list Z) :
  length hex = 32%nat → forallb is_hex hex = true →
  is_uuid (hyphenate hex) = true ∧ remove_hyphens (hyphenate hex) = hex.
Proof.
  intros Hlen Hhex.
  do 32 (destruct hex as [|? hex]; [done|]). destruct hex; [|done].
  cbn [forallb] in Hhex. rewrite !andb_true_iff in Hhex. destruct_and!.
  unfold hyphenate, slice, slice_from. change (lit "-") with [45].
  cbn [firstn skipn app Nat.sub]. split.
  - unfold is_uuid, slice. change (lit "-") with [45].
    cbn [firstn skipn length Nat.eqb Nat.sub forallb].
    repeat match goal with
           | H : is_hex _ = true |- _ => rewrite H; clear H
           end.
    done.
  - unfold remove_hyphens.
    repeat first
      [ rewrite filter_cons_True by by apply is_hex_not_hyphen
      | rewrite filter_cons_False by (by intros []) ].
    done.
Qed.

Lemma toLowerCase_hyphenate (hex : list Z) :
  toLowerCase (hyphenate hex) = hyphenate (toLowerCase hex).
Proof.
  unfold toLowerCase, hyphenate, slice, slice_from.
  by rewrite !fmap_app, !fmap_take, !fmap_drop.
Qed.

(** C2. For every UUID text [u], [encodeUUID(u)] returns 22 characters
    and [decodeUUID] of them returns [u] in lower case, which is again a
    UUID text and stands for the same 16 bytes. *)
Theorem encodeUUID_decodeUUID_roundtrip (u : list Z) :
  is_uuid u = true →
  ∃ s, encodeUUID u = Ok s ∧ len s = 22 ∧
       decodeUUID s = Ok (toLowerCase u) ∧
       is_uuid (toLowerCase u) = true ∧
       hex_to_bytes (remove_hyphens (toLowerCase u)) 16
       = hex_to_bytes (remove_hyphens u) 16.
Proof.
  intros (hex & Hlen & Hhex & Hu & Hrm)%uuid_shape.
  destruct (hex_bytes_text hex 16 Hlen Hhex) as (Htext & Hsame & Hlow).
  destruct (hex_to_bytes_in hex 16) as [Hbl Hbin].
  pose proof (horner_bounds 256 ltac:(lia) _ Hbin) as Hbd.
  rewrite Hbl in Hbd.
  assert (256 ^ Z.of_nat 16 < 60 ^ Z.of_nat 22) as Hfit by done.
  destruct (encode_fixed_width (horner 256 (hex_to_bytes hex 16)) 22
              ltac:(lia) ltac:(lia)) as (s & Hs & Hls & Hds).
  exists s. split_and!.
  - unfold encodeUUID. rewrite Hrm. unfold len at 1. rewrite Hlen.
    cbn [Z.of_nat Pos.of_succ_nat Pos.succ Z.eqb Pos.eqb negb].
    rewrite bytesToBigInt_horner. exact Hs.
  - unfold len. by rewrite Hls.
  - unfold decodeUUID. rewrite Hds, bind_Ok.
    destruct (bigIntToBytes_fixed (horner 256 (hex_to_bytes hex 16)) 16
                ltac:(lia) Hbd) as (bs & Hbs & Hbsl & Hbsin & Hbsv).
    change (Some (Z.of_nat 16)) with (Some 16) in Hbs. rewrite Hbs, bind_Ok.
    assert (bs = hex_to_bytes hex 16) as ->
        by (apply (horner_inj 256); (done || lia || congruence)).
    rewrite Htext, Hu, toLowerCase_hyphenate. done.
  - rewrite Hu, toLowerCase_hyphenate.
    apply hyphenate_facts; [|done].
    unfold toLowerCase. by rewrite length_fmap.
  - rewrite Hrm, Hu, toLowerCase_hyphenate.
    destruct (hyphenate_facts (toLowerCase hex)) as [_ ->]; [|done..].
    unfold toLowerCase. by rewrite length_fmap.
Qed.

Lemma encodeUUID_decodeUUID_roundtrip_witness :
  is_uuid (lit "550E8400-E29B-41D4-A716-446655440000") = true ∧
  ∃ s, encodeUUID (lit "550E8400-E29B-41D4-A716-446655440000") = Ok s ∧
       decodeUUID s = Ok (lit "550e8400-e29b-41d4-a716-446655440000").
Proof.
  split; [reflexivity|].
  destruct (encodeUUID_decodeUUID_roundtrip
              (lit "550E8400-E29B-41D4-A716-446655440000") eq_refl)
    as (s & Hs & _ & Hd & _).
  exists s. split; [exact Hs|exact Hd].
Defined.

Lemma encodeUUID_wrong_length (u : list Z) :
  len (remove_hyphens u) ≠ 32 → encodeUUID u = Throw InvalidUUID.
Proof.
  intros Hlen. unfold encodeUUID.
  by destruct (Z.eqb_spec (len (remove_hyphens u)) 32).
Qed.

(** C3. [decodeUUID] checks no length: on the one-character string ["0"]
    and on a string of 23 zero symbols it returns the nil UUID, where
    [decodeULID] and [decodeInt64] reject a string of the wrong length. *)
Theorem decodeUUID_accepts_wrong_length :
  decodeUUID (lit "0") = Ok (lit "00000000-0000-0000-0000-000000000000") ∧
  decodeUUID (lit "00000000000000000000000")
  = Ok (lit "00000000-0000-0000-0000-000000000000") ∧
  decodeULID (lit "0") = Throw ExpectedULIDChars ∧
  decodeInt64 (lit "0") = Throw ExpectedInt64Chars.
Proof. by vm_compute. Qed.

(** C4. [encodeUUID] checks the length of the stripped text only: 32
    characters that are no hexadecimal digits are encoded as zero bytes,
    and a UUID text whose last character is replaced by [g] is encoded as
    if that character were absent from its byte; a text of another
    stripped length is rejected. *)
Theorem encodeUUID_accepts_non_hex :
  encodeUUID (lit "zzzzzzzzzzzzzzzzzzzzzzzzzzzzzzzz")
  = Ok (lit "0000000000000000000000") ∧
  encodeUUID (lit "550e8400-e29b-41d4-a716-44665544000g")
  = encodeUUID (lit "550e8400-e29b-41d4-a716-446655440000") ∧
  (∃ s, encodeUUID (lit "550e8400-e29b-41d4-a716-44665544000g") = Ok s) ∧
  encodeUUID (lit "not-a-uuid") = Throw InvalidUUID.
Proof.
  split_and!; [by vm_compute..| |by vm_compute].
  eexists. by vm_compute.
Qed.

(** ** ULID text *)

Lemma ulid_class_range (c : Z) :
  ulid_class (ascii_upper c) = true → 48 <= c < 48 + 75.
Proof.
  unfold ascii_upper.
  destruct ((97 <=? c) && (c <=? 122)) eqn:E.
  - apply andb_true_iff in E as [?%Z.leb_le ?%Z.leb_le]. lia.
  - unfold ulid_class.
    rewrite !orb_true_iff, !andb_true_iff, !Z.leb_le, !Z.eqb_eq. lia.
Qed.

(** A character of the class, in either case, has a Crockford value,
    whose symbol is the character in upper case. *)
Lemma crockford_char_facts (c : Z) :
  ulid_class (ascii_upper c) = true →
  position (ascii_upper c) crockford = Some (crockford_value c) ∧
  0 <= crockford_value c < 32 ∧
  crockford_symbol (crockford_value c) = ascii_upper c ∧
  is_high_surrogate (ascii_upper c) = false.
Proof.
  intros Hc.
  pose proof (range_check
    (λ c, implb (ulid_class (ascii_upper c))
      (bool_decide (position (ascii_upper c) crockford
                    = Some (crockford_value c)) &&
       (0 <=? crockford_value c) && (crockford_value c <? 32) &&
       (crockford_symbol (crockford_value c) =? ascii_upper c) &&
       negb (is_high_surrogate (ascii_upper c))))
    48 75 ltac:(by vm_compute) c (ulid_class_range c Hc)) as H.
  cbn beta in H. rewrite Hc in H. cbn [implb] in H.
  rewrite !andb_true_iff, bool_decide_eq_true, negb_true_iff in H.
  destruct H as ((((H1 & H2%Z.leb_le) & H3%Z.ltb_lt) & H4%Z.eqb_eq) & H5).
  done.
Qed.

Lemma crockford_symbol_index (d : Z) :
  0 <= d < 32 → to_str (index crockford d) = [crockford_symbol d].
Proof.
  intros Hd.
  pose proof (range_check
    (λ d, bool_decide (to_str (index crockford d) = [crockford_symbol d]))
    0 32 ltac:(by vm_compute) d Hd) as H.
  by apply bool_decide_eq_true in H.
Qed.

(** The class of the regular expression is the Crockford alphabet. *)
Lemma ulid_class_crockford (x : Z) :
  ulid_class x = bool_decide (x ∈ crockford).
Proof.
  destruct (ulid_class x) eqn:E.
  - symmetry. apply bool_decide_eq_true.
    assert (48 <= x < 48 + 43) as Hx.
    { unfold ulid_class in E.
      rewrite !orb_true_iff, !andb_true_iff, !Z.leb_le, !Z.eqb_eq in E. lia. }
    pose proof (range_check
      (λ x, implb (ulid_class x) (bool_decide (x ∈ crockford)))
      48 43 ltac:(by vm_compute) x Hx) as H.
    cbn beta in H. rewrite E in H. by apply bool_decide_eq_true in H.
  - symmetry. apply bool_decide_eq_false. intros Hin.
    apply list_elem_of_In in Hin. vm_compute in Hin.
    repeat (destruct Hin as [<-|Hin]; [discriminate E|]). done.
Qed.

Lemma is_ulid_regex (u : list Z) : ulid_regex_test u = is_ulid u.
Proof.
  unfold ulid_regex_test, is_ulid. f_equal.
  induction u as [|c u IH]; [done|].
  cbn [forallb]. by rewrite IH, ulid_class_crockford.
Qed.

Lemma ulid_for_value (u : list Z) (acc : Z) :
  forallb (λ c, ulid_class (ascii_upper c)) u = true →
  ulid_for (char_str <$> toUpperCase u) acc
  = Ok (horner_from 32 acc (crockford_value <$> u)) ∧
  digits_in 32 (crockford_value <$> u) ∧
  Forall (λ c, is_high_surrogate c = false) (toUpperCase u) ∧
  crockford_symbol <$> (crockford_value <$> u) = toUpperCase u.
Proof.
  unfold toUpperCase. revert acc.
  induction u as [|c u IH]; intros acc Hu.
  - split_and!; [done|constructor|constructor|done].
  - cbn [forallb] in Hu. apply andb_true_iff in Hu as [Hc Hu].
    destruct (crockford_char_facts c Hc) as (Hpos & Hrange & Hsym & Hsur).
    rewrite !fmap_cons. cbn [ulid_for]. unfold char_str at 1.
    rewrite map32_char, Hpos, Z.shiftl_mul_pow2 by lia.
    destruct (IH (acc * 2 ^ 5 + crockford_value c) Hu) as (-> & Hin & Hs & Heq).
    split_and!; [done|by constructor|by constructor|].
    by rewrite Hsym, Heq.
Qed.

(** ** Bytes as bits *)

Lemma byte_bits_facts (b : Z) :
  0 <= b < 256 →
  padStart (toString b 2) 8 (lit "0") = digit_char <$> fixed_digits 2 8 b ∧
  length (fixed_digits 2 8 b) = 8%nat ∧
  digits_in 2 (fixed_digits 2 8 b) ∧
  horner 2 (fixed_digits 2 8 b) = b.
Proof.
  intros Hb.
  pose proof (range_check
    (λ b, bool_decide (padStart (toString b 2) 8 (lit "0")
                       = digit_char <$> fixed_digits 2 8 b) &&
          (length (fixed_digits 2 8 b) =? 8)%nat &&
          forallb (λ d, (0 <=? d) && (d <? 2)) (fixed_digits 2 8 b) &&
          (horner 2 (fixed_digits 2 8 b) =? b))
    0 256 ltac:(by vm_compute) b Hb) as H.
  cbn beta in H.
  rewrite !andb_true_iff, bool_decide_eq_true, Nat.eqb_eq, Z.eqb_eq in H.
  destruct H as (((H1 & H2) & H3) & H4). split_and!; [done..| |done].
  rewrite forallb_forall in H3. apply Forall_forall. intros d Hd.
  apply list_elem_of_In, H3 in Hd.
  apply andb_true_iff in Hd as [?%Z.leb_le ?%Z.ltb_lt]. lia.
Qed.

Lemma foldl_append {A} (f : A → list Z) (l : list A) (init : list Z) :
  foldl (λ acc x, acc ++ f x) init l = init ++ concat (f <$> l).
Proof.
  revert init. induction l as [|x l IH]; intros init; cbn.
  - by rewrite app_nil_r.
  - by rewrite IH, app_assoc.
Qed.

(** The bit strings of a list of bytes, joined, spell the bits of its
    value. *)
Lemma bytes_bits (bs : list Z) :
  digits_in 256 bs →
  ∃ bits, concat ((λ b, padStart (toString b 2) 8 (lit "0")) <$> bs)
          = digit_char <$> bits ∧
          length bits = (length bs * 8)%nat ∧ digits_in 2 bits ∧
          horner 2 bits = horner 256 bs.
Proof.
  induction 1 as [|b bs Hb _ (bits & Heq & Hlen & Hin & Hval)].
  - exists []. split_and!; [done..|constructor|done].
  - destruct (byte_bits_facts b Hb) as (H1 & H2 & H3 & H4).
    exists (fixed_digits 2 8 b ++ bits). split_and!.
    + by rewrite fmap_cons, fmap_app, <- Heq, <- H1.
    + rewrite length_app, H2, Hlen. cbn [length]. lia.
    + by apply Forall_app.
    + rewrite horner_app, horner_cons, H4, Hval, Hlen by lia.
      rewrite Nat2Z.inj_mul, (Z.mul_comm (Z.of_nat (length bs))),
        Z.pow_mul_r by lia.
      done.
Qed.

(** The 26 chunks of 5 bits of 16 bytes are the base-32 digits of their
    value, and step 3 of [decodeULID] spells them. *)
Lemma bytes_to_crockford_digits (bs ds : list Z) :
  length bs = 16%nat → digits_in 256 bs →
  length ds = 26%nat → digits_in 32 ds → horner 32 ds = horner 256 bs →
  bytes_to_crockford bs = crockford_symbol <$> ds.
Proof.
  intros Hbl Hbin Hdl Hdin Hval. unfold bytes_to_crockford. cbv zeta.
  rewrite !foldl_append. cbn [app].
  destruct (bytes_bits bs Hbin) as (bits & -> & Hlen & Hin & Hbv).
  rewrite Hbl in Hlen.
  change (lit "0") with [48]. rewrite padStart_char, length_fmap, Hlen.
  change (replicate (Z.to_nat 130 - 16 * 8) 48) with (digit_char <$> [0; 0]).
  rewrite <- fmap_app.
  set (padded := [0; 0] ++ bits).
  assert (length padded = (26 * 5)%nat) as Hpl
      by (subst padded; rewrite length_app, Hlen; done).
  assert (digits_in 2 padded) as Hpin.
  { subst padded. apply Forall_app. split; [|done].
    repeat constructor; lia. }
  assert (horner 2 padded = horner 256 bs) as Hpv.
  { subst padded. change [0; 0] with (replicate 2 0).
    by rewrite horner_replicate_0. }
  pose proof (horner_chunks 2 5 26 padded ltac:(lia) ltac:(lia) Hpl) as Hcv.
  pose proof (chunks_in 2 5 26 padded ltac:(lia) Hpin Hpl) as Hcin.
  change (2 ^ Z.of_nat 5) with 32 in Hcv, Hcin.
  assert ((λ i, horner 2 (take 5 (drop (i * 5) padded))) <$> seq 0 26 = ds)
    as Hds.
  { apply (horner_inj 32); [lia| |done|done|congruence].
    by rewrite length_fmap, length_seq. }
  rewrite <- Hds, <- list_fmap_compose.
  set (f := crockford_symbol ∘ _).
  transitivity (concat ((λ i, [f i]) <$> seq 0 26)).
  - f_equal. apply list_fmap_ext. intros i ? Hi.
    apply lookup_seq in Hi as [-> Hi]. cbn [Nat.add].
    unfold slice. replace (i * 5 + 5 - i * 5)%nat with 5%nat by lia.
    rewrite <- fmap_drop, <- fmap_take.
    assert (digits_in 2 (take 5 (drop (i * 5) padded))) as Hin'
        by by apply Forall_take, Forall_drop.
    assert (length (take 5 (drop (i * 5) padded)) = 5%nat) as Hl5
        by (rewrite length_take, length_drop; lia).
    rewrite parseInt_digits; [|lia|done|by intros Heq; rewrite Heq in Hl5].
    pose proof (horner_bounds 2 ltac:(lia) _ Hin') as Hbd.
    rewrite Hl5 in Hbd. change (2 ^ Z.of_nat 5) with 32 in Hbd.
    by rewrite crockford_symbol_index.
  - generalize (seq 0 26). intros l.
    induction l as [|i l IH]; [done|]. cbn. by rewrite IH.
Qed.

(** C5. For every ULID text [u] that stands for a 128-bit value,
    [encodeULID(u)] returns 22 characters and [decodeULID] of them
    returns [u] in upper case. *)
Theorem encodeULID_decodeULID_roundtrip (u : list Z) :
  is_ulid u = true → ulid_value u < 2 ^ 128 →
  ∃ s, encodeULID u = Ok s ∧ len s = 22 ∧ decodeULID s = Ok (toUpperCase u).
Proof.
  intros Hu Hbits.
  pose proof Hu as Hre. rewrite <- is_ulid_regex in Hre.
  unfold ulid_regex_test in Hre.
  apply andb_true_iff in Hre as [Hlen%Nat.eqb_eq Hclass].
  destruct (ulid_for_value u 0 Hclass) as (Hfor & Hin & Hascii & Hsym).
  pose proof (horner_bounds 32 ltac:(lia) _ Hin) as Hbd.
  fold (horner 32 (crockford_value <$> u)) in Hfor.
  fold (ulid_value u) in Hfor, Hbd.
  assert (2 ^ 128 < 60 ^ Z.of_nat 22) as Hfit by done.
  destruct (encode_fixed_width (ulid_value u) 22 ltac:(lia) ltac:(lia))
    as (s & Hs & Hls & Hds).
  exists s. split_and!.
  - unfold encodeULID. rewrite is_ulid_regex, Hu. cbn [negb].
    rewrite code_points_singletons, Hfor, bind_Ok by done. exact Hs.
  - unfold len. by rewrite Hls.
  - unfold decodeULID, len. rewrite Hls.
    cbn [Z.of_nat Pos.of_succ_nat Pos.succ Z.eqb Pos.eqb negb].
    rewrite Hds, bind_Ok.
    destruct (bigIntToBytes_fixed (ulid_value u) 16 ltac:(lia))
      as (bs & Hbs & Hbl & Hbin & Hbv).
    { change (256 ^ Z.of_nat 16) with (2 ^ 128). lia. }
    change (Some (Z.of_nat 16)) with (Some 16) in Hbs.
    rewrite Hbs, bind_Ok.
    rewrite (bytes_to_crockford_digits bs (crockford_value <$> u));
      [by rewrite Hsym|done|done|by rewrite length_fmap|done|].
    by rewrite Hbv.
Qed.

Lemma encodeULID_decodeULID_roundtrip_witness :
  is_ulid (lit "01h8j5n3z9v8xk8e2x5pwsq4m0") = true ∧
  ulid_value (lit "01h8j5n3z9v8xk8e2x5pwsq4m0") < 2 ^ 128 ∧
  ∃ s, encodeULID (lit "01h8j5n3z9v8xk8e2x5pwsq4m0") = Ok s ∧
       decodeULID s = Ok (lit "01H8J5N3Z9V8XK8E2X5PWSQ4M0").
Proof.
  split; [reflexivity|]. split; [reflexivity|].
  destruct (encodeULID_decodeULID_roundtrip
              (lit "01h8j5n3z9v8xk8e2x5pwsq4m0") eq_refl eq_refl)
    as (s & Hs & _ & Hd).
  exists s. split; [exact Hs|exact Hd].
Defined.

(** ** Termination *)

(** The loop of [encodeBigInt] never exhausts its fuel. *)
Lemma encodeBigInt_terminates (v : Z) (padLength : option Z) :
  encodeBigInt v padLength ≠ OutOfFuel.
Proof.
  destruct (Z.le_gt_cases 0 v) as [Hv|Hv].
  - destruct padLength as [w|].
    + rewrite encodeBigInt_pad, leftPad_spec by done.
      by destruct (w <? len (minimal_repr v)).
    + by rewrite encodeBigInt_minimal.
  - unfold encodeBigInt. destruct (Z.eqb_spec v 0); [lia|].
    unfold encode_fuel. cbn [encode_while].
    destruct (Z.ltb_spec 0 v); [lia|].
    destruct padLength as [w|]; [|done].
    unfold leftPad. by destruct (w <? len []).
Qed.

(** ** The test vectors of the repository *)

Example test_bigint_roundtrip :
  Forall (λ v, (s ← encodeBigInt v None; decodeToBigInt s) = Ok v)
         [0; 1; 123456789; 2 ^ 64 - 1; 2 ^ 127 - 1; 2 ^ 200 - 1].
Proof. repeat constructor. Qed.

Example test_int64 :
  (len <$> encodeInt64 123456789) = Ok 11 ∧
  (s ← encodeInt64 123456789; decodeInt64 s) = Ok 123456789 ∧
  encodeInt64 0 = Ok (lit "00000000000") ∧
  (isValidBase60 <$> encodeInt64 0) = Ok true ∧
  (s ← encodeInt64 0; decodeInt64 s) = Ok 0.
Proof. by vm_compute. Qed.

Example test_uuid :
  (len <$> encodeUUID (lit "550e8400-e29b-41d4-a716-446655440000")) = Ok 22 ∧
  (s ← encodeUUID (lit "550e8400-e29b-41d4-a716-446655440000"); decodeUUID s)
  = Ok (lit "550e8400-e29b-41d4-a716-446655440000").
Proof. by vm_compute. Qed.

Example test_bytes :
  (s ← encodeBytes [0; 1; 2; 100; 255]; decodeToBytes s) = Ok [1; 2; 100; 255].
Proof. by vm_compute. Qed.

Example test_ulid :
  (len <$> encodeULID (lit "01H8J5N3Z9V8XK8E2X5PWSQ4M0")) = Ok 22 ∧
  (isValidBase60 <$> encodeULID (lit "01H8J5N3Z9V8XK8E2X5PWSQ4M0")) = Ok true ∧
  (s ← encodeULID (lit "01H8J5N3Z9V8XK8E2X5PWSQ4M0"); decodeULID s)
  = Ok (lit "01H8J5N3Z9V8XK8E2X5PWSQ4M0").
Proof. by vm_compute. Qed.

Example test_compare :
  (a ← encodeBigInt 123 None; b ← encodeBigInt 999 None; compareAsBigInt a b)
  = Ok (-1) ∧
  (a ← encodeBigInt 123 None; b ← encodeBigInt 999 None; compareAsBigInt b a)
  = Ok 1 ∧
  (a ← encodeBigInt 123 None; compareAsBigInt a a) = Ok 0.
Proof. by vm_compute. Qed.

Example test_isValidBase60 :
  (isValidBase60 <$> encodeBigInt 99999 None) = Ok true ∧
  isValidBase60 (lit "invalid!") = false ∧
  isValidBase60 [0xFF10; 0xFF11; 0xFF12; 0xFF13] = false.
Proof. by vm_compute. Qed.

Example test_rejections :
  encodeUUID (lit "not-a-uuid") = Throw InvalidUUID ∧
  encodeULID (lit "too-short") = Throw InvalidULIDFormat.
Proof. by vm_compute. Qed.

(** * Further properties of the codec *)

Lemma decodeToBigInt_minimal (v : Z) :
  0 <= v → decodeToBigInt (minimal_repr v) = Ok v.
Proof. intros Hv. exact (decodeToBigInt_padded v 0 Hv). Qed.

(** ** Bytes *)

(** For a non-negative [v], [bigIntToBytes] computes one byte list, the
    minimal big-endian bytes of [v], and returns it as it is or padded to
    the fixed length. *)
Lemma bigIntToBytes_bytes (v : Z) :
  0 <= v →
  ∃ bs, bs ≠ [] ∧ digits_in 256 bs ∧ horner 256 bs = v ∧
        (∀ n, (0 < n)%nat → v < 256 ^ Z.of_nat n → (length bs <= n)%nat) ∧
        ∀ fixedLength,
          bigIntToBytes v fixedLength =
          match fixedLength with
          | Some w =>
              if w <? len bs then Throw DecodedBytesExceed
              else Ok (replicate (Z.to_nat w - length bs) 0 ++ bs)
          | None => Ok bs
          end.
Proof.
  intros Hv. unfold bigIntToBytes.
  destruct (Z.ltb_spec v 0); [lia|].
  destruct (toString_digits 16 v ltac:(lia) Hv)
    as (ds0 & -> & Hin0 & Hval0 & Hnn0 & Hlen0).
  rewrite length_fmap.
  assert (∃ ds m,
    (if Z.of_nat (length ds0) mod 2 =? 1
     then lit "0" ++ (digit_char <$> ds0) else digit_char <$> ds0)
    = digit_char <$> ds ∧ digits_in 16 ds ∧ horner 16 ds = v ∧
    length ds = (m * 2)%nat ∧ (0 < m)%nat ∧
    ∀ n, (0 < n)%nat → v < 256 ^ Z.of_nat n → (m <= n)%nat)
    as (ds & m & -> & Hin & Hval & Hlen & Hm & Hmin).
  { assert (∀ n, (0 < n)%nat → v < 256 ^ Z.of_nat n →
                 (length ds0 <= 2 * n)%nat) as Hle.
    { intros n Hn Hlt. apply Hlen0; [lia|].
      rewrite Nat2Z.inj_mul, Z.pow_mul_r by lia. done. }
    assert (0 < length ds0)%nat by (destruct ds0; [done|cbn; lia]).
    pose proof (Z.div_mod (Z.of_nat (length ds0)) 2 ltac:(lia)) as Hdm.
    pose proof (Z.mod_pos_bound (Z.of_nat (length ds0)) 2 ltac:(lia)) as Hmb.
    destruct (Z.eqb_spec (Z.of_nat (length ds0) mod 2) 1) as [Hodd|Heven].
    - exists (0 :: ds0), (Z.to_nat (Z.of_nat (length ds0) / 2) + 1)%nat.
      split_and!; [done| | |cbn [length]; lia|lia|].
      + constructor; [lia|done].
      + rewrite horner_cons by lia. lia.
      + intros n Hn Hlt. specialize (Hle n Hn Hlt). lia.
    - exists ds0, (Z.to_nat (Z.of_nat (length ds0) / 2)).
      split_and!; [done..|lia|lia|].
      intros n Hn Hlt. specialize (Hle n Hn Hlt). lia. }
  rewrite length_fmap, Hlen, Nat.div_mul by lia. unfold hex_to_bytes.
  assert ((λ i, toUint8 (parseInt (substr (digit_char <$> ds) (i * 2) 2) 16))
            <$> seq 0 m
          = (λ i, horner 16 (take 2 (drop (i * 2) ds))) <$> seq 0 m) as ->.
  { apply list_fmap_ext. intros i ? Hi.
    apply lookup_seq in Hi as [-> Hi]. cbn [Nat.add].
    unfold substr. rewrite <- fmap_drop, <- fmap_take.
    assert (digits_in 16 (take 2 (drop (i * 2) ds))) as Hin'
        by by apply Forall_take, Forall_drop.
    assert (length (take 2 (drop (i * 2) ds)) = 2%nat) as Hl2
        by (rewrite length_take, length_drop; lia).
    rewrite parseInt_digits; [|lia|done|by intros Heq; rewrite Heq in Hl2].
    pose proof (horner_bounds 16 ltac:(lia) _ Hin') as Hbd.
    rewrite Hl2 in Hbd. cbn [toUint8]. apply Z.mod_small.
    change (16 ^ Z.of_nat 2) with 256 in Hbd. lia. }
  pose proof (horner_chunks 16 2 m ds ltac:(lia) ltac:(lia) Hlen) as Hval'.
  pose proof (chunks_in 16 2 m ds ltac:(lia) Hin Hlen) as Hin'.
  change (16 ^ Z.of_nat 2) with 256 in Hval', Hin'.
  set (bytes := (λ i, horner 16 (take 2 (drop (i * 2) ds))) <$> seq 0 m) in *.
  assert (length bytes = m) as Hbl
      by (subst bytes; by rewrite length_fmap, length_seq).
  exists bytes. split_and!; [|done|congruence| |done].
  - intros Heq. rewrite Heq in Hbl. cbn in Hbl. lia.
  - by rewrite Hbl.
Qed.

(** A non-empty digit list whose first digit is not zero is as short as
    any digit list of its value. *)
Lemma horner_leading (b : Z) (d : Z) (ds : list Z) :
  1 < b → digits_in b (d :: ds) → d ≠ 0 →
  b ^ Z.of_nat (length ds) <= horner b (d :: ds).
Proof.
  intros Hb [Hd Hds]%Forall_cons Hnz.
  rewrite horner_cons by done.
  pose proof (horner_bounds b Hb ds Hds).
  assert (0 < b ^ Z.of_nat (length ds)) by (apply Z.pow_pos_nonneg; lia).
  nia.
Qed.

Lemma drop_zeros_facts (bs : list Z) :
  digits_in 256 bs →
  digits_in 256 (drop_zeros bs) ∧
  horner 256 (drop_zeros bs) = horner 256 bs ∧
  (length (drop_zeros bs) <= length bs)%nat ∧
  match drop_zeros bs with
  | [] => horner 256 bs = 0
  | d :: _ => d ≠ 0
  end.
Proof.
  induction 1 as [|b bs Hb Hbs (IH1 & IH2 & IH3 & IH4)]; cbn [drop_zeros].
  - split_and!; [constructor|done|done|done].
  - destruct (Z.eqb_spec b 0) as [->|Hnz].
    + rewrite horner_cons by lia. cbn [length].
      split_and!; [done|lia|lia|].
      destruct (drop_zeros bs); [lia|done].
    + split_and!; [by constructor|done|done|done].
Qed.

Lemma minimal_bytes_facts (bs : list Z) :
  digits_in 256 bs →
  minimal_bytes bs ≠ [] ∧ digits_in 256 (minimal_bytes bs) ∧
  horner 256 (minimal_bytes bs) = horner 256 bs ∧
  (0 < horner 256 bs →
   256 ^ (Z.of_nat (length (minimal_bytes bs)) - 1) <= horner 256 bs) ∧
  (horner 256 bs = 0 → minimal_bytes bs = [0]).
Proof.
  intros Hbs. destruct (drop_zeros_facts bs Hbs) as (H1 & H2 & _ & H4).
  pose proof (horner_bounds 256 ltac:(lia) _ Hbs) as Hbd.
  unfold minimal_bytes. destruct (drop_zeros bs) as [|d ds] eqn:E.
  - split_and!; [done|repeat constructor; lia|by rewrite H4|lia|done].
  - split_and!; [done|done|done| |].
    + intros _. rewrite <- H2. cbn [length].
      replace (Z.of_nat (S (length ds)) - 1) with (Z.of_nat (length ds)) by lia.
      by apply horner_leading.
    + intros Hz. exfalso.
      pose proof (horner_leading 256 d ds ltac:(lia) H1 H4) as Hl.
      assert (0 < 256 ^ Z.of_nat (length ds)) by (apply Z.pow_pos_nonneg; lia).
      lia.
Qed.

(** X1. [bytesToBigInt] is the big-endian value: the value of a
    concatenation is the value of the front shifted by the bytes of the
    back plus the value of the back, and one byte is its own value. *)
Theorem bytesToBigInt_app (front back : list Z) (b : Z) :
  bytesToBigInt (front ++ back)
  = bytesToBigInt front * 256 ^ len back + bytesToBigInt back ∧
  bytesToBigInt [b] = b ∧ bytesToBigInt [] = 0.
Proof.
  rewrite !bytesToBigInt_horner. split_and!; [|by cbn; lia|done].
  by apply horner_app.
Qed.

(** X2. Bytes read into an integer and written back at their own length
    are the same bytes, leading zeros included. *)
Theorem bigIntToBytes_bytesToBigInt_fixed (bytes : list Z) :
  bytes ≠ [] → digits_in 256 bytes →
  bigIntToBytes (bytesToBigInt bytes) (Some (len bytes)) = Ok bytes.
Proof.
  intros Hnn Hin. rewrite bytesToBigInt_horner.
  pose proof (horner_bounds 256 ltac:(lia) _ Hin) as Hbd.
  destruct (bigIntToBytes_bytes (horner 256 bytes) ltac:(lia))
    as (bs & _ & Hbin & Hbv & Hmin & ->).
  assert (length bs <= length bytes)%nat as Hle.
  { apply Hmin; [destruct bytes; [done|cbn; lia]|lia]. }
  unfold len. destruct (Z.ltb_spec (Z.of_nat (length bytes)) (Z.of_nat (length bs)));
    [lia|].
  f_equal. apply (horner_inj 256); [lia| |..|done|].
  - rewrite length_app, length_replicate. lia.
  - apply Forall_app. split; [|done]. apply Forall_replicate. lia.
  - by rewrite horner_replicate_0.
Qed.

Lemma bigIntToBytes_bytesToBigInt_fixed_witness :
  [0; 0; 7; 255] ≠ [] ∧ digits_in 256 [0; 0; 7; 255] ∧
  bigIntToBytes (bytesToBigInt [0; 0; 7; 255]) (Some 4) = Ok [0; 0; 7; 255].
Proof.
  assert (digits_in 256 [0; 0; 7; 255]) as Hin by (repeat constructor; lia).
  split; [done|]. split; [exact Hin|].
  by apply (bigIntToBytes_bytesToBigInt_fixed [0; 0; 7; 255]).
Defined.

(** X3. [bigIntToBytes(v, n)] on a non-negative [v]: for a positive [n]
    and [v] below [256^n] it returns exactly [n] bytes of value [v];
    otherwise it throws the fixed-length error. *)
Theorem bigIntToBytes_fixed_cases (v n : Z) :
  0 <= v →
  (0 < n ∧ v < 256 ^ n →
   ∃ bs, bigIntToBytes v (Some n) = Ok bs ∧ len bs = n ∧
         digits_in 256 bs ∧ bytesToBigInt bs = v) ∧
  (n <= 0 ∨ 256 ^ n <= v → bigIntToBytes v (Some n) = Throw DecodedBytesExceed).
Proof.
  intros Hv.
  destruct (bigIntToBytes_bytes v Hv) as (bs & Hnn & Hin & Hval & Hmin & ->).
  pose proof (horner_bounds 256 ltac:(lia) _ Hin) as Hbd. rewrite Hval in Hbd.
  assert (0 < length bs)%nat by (destruct bs; [done|cbn; lia]).
  unfold len. split.
  - intros [Hn Hlt].
    assert (length bs <= Z.to_nat n)%nat
      by (apply Hmin; [lia|by rewrite Z2Nat.id by lia]).
    destruct (Z.ltb_spec n (Z.of_nat (length bs))); [lia|].
    eexists. split; [done|]. split_and!.
    + rewrite length_app, length_replicate. lia.
    + apply Forall_app. split; [|done]. apply Forall_replicate. lia.
    + by rewrite bytesToBigInt_horner, horner_replicate_0.
  - intros Hor.
    destruct (Z.ltb_spec n (Z.of_nat (length bs))) as [|Hge]; [done|].
    exfalso. destruct Hor as [|Hle]; [lia|].
    assert (256 ^ Z.of_nat (length bs) <= 256 ^ n)
      by (apply Z.pow_le_mono_r; lia).
    lia.
Qed.

Lemma bigIntToBytes_fixed_cases_witness :
  0 <= 65536 ∧
  (∃ bs, bigIntToBytes 65536 (Some 3) = Ok bs ∧ len bs = 3 ∧
         digits_in 256 bs ∧ bytesToBigInt bs = 65536) ∧
  bigIntToBytes 65536 (Some 2) = Throw DecodedBytesExceed.
Proof.
  split; [lia|].
  destruct (bigIntToBytes_fixed_cases 65536 3 ltac:(lia)) as [H3 _].
  destruct (bigIntToBytes_fixed_cases 65536 2 ltac:(lia)) as [_ H2].
  split.
  - apply H3. split; [lia|reflexivity].
  - apply H2. right. vm_compute. discriminate.
Defined.

(** X4. Decoding what [encodeBytes] returns gives the bytes without their
    leading zeros: the minimal bytes of the same value. *)
Theorem decodeToBytes_encodeBytes (bytes : list Z) :
  digits_in 256 bytes →
  (s ← encodeBytes bytes; decodeToBytes s) = Ok (minimal_bytes bytes).
Proof.
  intros Hin. unfold encodeBytes, decodeToBytes.
  rewrite bytesToBigInt_horner.
  pose proof (horner_bounds 256 ltac:(lia) _ Hin) as Hbd.
  rewrite encodeBigInt_minimal, bind_Ok by lia.
  rewrite decodeToBigInt_minimal, bind_Ok by lia.
  destruct (bigIntToBytes_bytes (horner 256 bytes) ltac:(lia))
    as (bs & Hnn & Hbin & Hbv & Hmin & ->).
  destruct (minimal_bytes_facts bytes Hin) as (Mnn & Min & Mv & Mlow & Mz).
  f_equal.
  destruct (decide (horner 256 bytes = 0)) as [Hz|Hnz].
  - rewrite (Mz Hz).
    assert (length bs <= 1)%nat by (apply Hmin; [lia|rewrite Hz; done]).
    destruct bs as [|b [|? ?]]; [done| |cbn in *; lia].
    f_equal. rewrite <- Hbv in Hz. unfold horner in Hz. cbn in Hz. lia.
  - specialize (Mlow ltac:(lia)).
    pose proof (horner_bounds 256 ltac:(lia) _ Hbin) as Hb1.
    pose proof (horner_bounds 256 ltac:(lia) _ Min) as Hb2.
    assert (0 < length (minimal_bytes bytes))%nat
      by (destruct (minimal_bytes bytes); [done|cbn; lia]).
    assert (length bs <= length (minimal_bytes bytes))%nat
      by (apply Hmin; [done|lia]).
    assert (length (minimal_bytes bytes) <= length bs)%nat.
    { destruct (decide (length (minimal_bytes bytes) <= length bs)%nat)
        as [|Hgt]; [done|exfalso].
      assert (256 ^ Z.of_nat (length bs)
              <= 256 ^ (Z.of_nat (length (minimal_bytes bytes)) - 1))
        by (apply Z.pow_le_mono_r; lia).
      lia. }
    apply (horner_inj 256); [lia|lia|done|done|congruence].
Qed.

Lemma decodeToBytes_encodeBytes_witness :
  digits_in 256 [0; 0; 1; 0; 255] ∧
  (s ← encodeBytes [0; 0; 1; 0; 255]; decodeToBytes s) = Ok [1; 0; 255].
Proof.
  assert (digits_in 256 [0; 0; 1; 0; 255]) as Hin by (repeat constructor; lia).
  split; [exact Hin|].
  exact (decodeToBytes_encodeBytes [0; 0; 1; 0; 255] Hin).
Defined.

(** X5. [encodeBytes] does not see leading zero bytes: a byte list with
    zero bytes put in front has the same encoding. *)
Theorem encodeBytes_leading_zeros (n : nat) (bytes : list Z) :
  encodeBytes (replicate n 0 ++ bytes) = encodeBytes bytes.
Proof.
  unfold encodeBytes.
  by rewrite !bytesToBigInt_horner, horner_replicate_0 by lia.
Qed.

Lemma bytes_minimal (bs : list Z) :
  bs ≠ [] → digits_in 256 bs →
  (∀ n, (0 < n)%nat → horner 256 bs < 256 ^ Z.of_nat n → (length bs <= n)%nat) →
  minimal_bytes bs = bs.
Proof.
  intros Hnn Hin Hmin. destruct bs as [|d bs]; [done|].
  unfold minimal_bytes. cbn [drop_zeros].
  destruct (Z.eqb_spec d 0) as [->|Hnz]; [|done].
  destruct bs as [|d' bs]; [done|]. exfalso.
  apply Forall_cons in Hin as [_ Hin].
  pose proof (horner_bounds 256 ltac:(lia) _ Hin) as Hbd.
  specialize (Hmin (length (d' :: bs))).
  rewrite horner_cons in Hmin by lia. cbn [length] in *.
  assert (S (S (length bs)) <= S (length bs))%nat; [|lia].
  apply Hmin; lia.
Qed.

(** X6. [decodeToBytes] returns exactly on the valid strings, and what it
    returns is the minimal byte list of the decoded integer: not empty,
    and without a leading zero byte unless it is the single byte 0. *)
Theorem decodeToBytes_minimal (text : list Z) :
  (isValidBase60 text = true ↔ ∃ bs, decodeToBytes text = Ok bs) ∧
  ∀ bs, decodeToBytes text = Ok bs →
        bs ≠ [] ∧ digits_in 256 bs ∧
        decodeToBigInt text = Ok (bytesToBigInt bs) ∧ minimal_bytes bs = bs.
Proof.
  unfold decodeToBytes.
  destruct (decodeToBigInt text) as [v|e|] eqn:Hd.
  - destruct (decodeToBigInt_valid text v Hd) as [Hvalid Hv].
    destruct (valid_symbols text Hvalid) as [_ Hin].
    pose proof (horner_bounds 60 ltac:(lia) _ Hin) as Hbd. rewrite <- Hv in Hbd.
    destruct (bigIntToBytes_bytes v ltac:(lia))
      as (bs & Hnn & Hbin & Hbv & Hmin & Heq).
    rewrite bind_Ok, Heq. split.
    + split; [by exists bs|done].
    + intros ? [= <-]. split_and!; [done..| |].
      * by rewrite bytesToBigInt_horner, Hbv.
      * apply bytes_minimal; [done..|]. by rewrite Hbv.
  - rewrite bind_Throw. split; [|done]. split; [|by intros [? ?]].
    intros Hvalid. exfalso.
    destruct (valid_symbols text Hvalid) as [Heq Hin].
    rewrite Heq, decodeToBigInt_symbols in Hd by done. done.
  - exfalso. unfold decodeToBigInt in Hd.
    destruct (decode_for_cases (code_points text) 0 (code_points_shape text))
      as [(_ & _ & ? & H)|(? & _ & _ & _ & H)]; congruence.
Qed.

(** ** The symbol table *)

(** X7. [charToValue] is the inverse of indexing the alphabet: it maps
    the one-character string [alphabet[d]] to [d] for each of the 60
    positions, and holds no other key. *)
Theorem charToValue_inverse (ch : list Z) (d : Z) :
  charToValue !! ch = Some d ↔ ∃ c, index alphabet d = Some c ∧ ch = [c].
Proof.
  split.
  - intros (c & -> & Hpos)%charToValue_key. exists c. split; [|done].
    apply position_lookup in Hpos as (Hd & Hl & _).
    unfold index. by destruct (Z.ltb_spec d 0); [lia|].
  - intros (c & Hidx & ->). rewrite charToValue_char.
    unfold index in Hidx. destruct (Z.ltb_spec d 0); [done|].
    apply position_lookup. split_and!; [done..|].
    intros j Hj Hl'.
    pose proof (NoDup_lookup _ _ _ _ NoDup_alphabet Hidx Hl'). lia.
Qed.

(** ** Decoding *)

Lemma code_points_ascii_cons (c : Z) (t : list Z) :
  is_high_surrogate c = false → code_points (c :: t) = [c] :: code_points t.
Proof.
  intros Hc. destruct t as [|c' t]; [done|].
  by rewrite code_points_cons, Hc.
Qed.

Lemma code_points_ascii_app (a b : list Z) :
  Forall (λ c, is_high_surrogate c = false) a →
  code_points (a ++ b) = (char_str <$> a) ++ code_points b.
Proof.
  induction 1 as [|c a Hc _ IH]; [done|].
  cbn [app]. rewrite code_points_ascii_cons, IH by done. done.
Qed.

Lemma decode_for_app (l1 l2 : list (list Z)) (acc : Z) :
  decode_for (l1 ++ l2) acc = (v ← decode_for l1 acc; decode_for l2 v).
Proof.
  revert acc. induction l1 as [|ch l1 IH]; intros acc; [done|].
  cbn [app decode_for]. by destruct (charToValue !! ch).
Qed.

Lemma decode_for_shift (chars : list (list Z)) (acc : Z) :
  decode_for chars acc =
  (v ← decode_for chars 0; Ok (acc * 60 ^ Z.of_nat (length chars) + v)).
Proof.
  revert acc. induction chars as [|ch chars IH]; intros acc.
  - cbn [decode_for length]. rewrite bind_Ok. f_equal.
    change (60 ^ Z.of_nat 0) with 1. lia.
  - cbn [decode_for length]. destruct (charToValue !! ch) as [d|]; [|done].
    rewrite (IH (acc * base + d)), (IH (0 * base + d)), base_60.
    destruct (decode_for chars 0) as [v|e|]; [|done..].
    rewrite !bind_Ok. f_equal.
    rewrite Nat2Z.inj_succ, Z.pow_succ_r by lia. ring.
Qed.

Lemma isValid_for_app (l1 l2 : list (list Z)) :
  isValid_for (l1 ++ l2) = isValid_for l1 && isValid_for l2.
Proof.
  induction l1 as [|ch l1 IH]; [done|].
  cbn [app isValid_for]. by destruct (includes alphabet ch).
Qed.

(** X8. Zero symbols in front of a string are invisible: they change
    neither what [decodeToBigInt] returns or throws, nor the verdict of
    [isValidBase60], nor the result of [compareAsBigInt] on either side. *)
Theorem decodeToBigInt_leading_zeros (n : nat) (text other : list Z) :
  decodeToBigInt (replicate n (symbol 0) ++ text) = decodeToBigInt text ∧
  isValidBase60 (replicate n (symbol 0) ++ text) = isValidBase60 text ∧
  compareAsBigInt (replicate n (symbol 0) ++ text) other
  = compareAsBigInt text other ∧
  compareAsBigInt other (replicate n (symbol 0) ++ text)
  = compareAsBigInt other text.
Proof.
  assert (Forall (λ c, is_high_surrogate c = false) (replicate n (symbol 0)))
    as Hascii by (apply Forall_replicate; reflexivity).
  assert (decodeToBigInt (replicate n (symbol 0) ++ text) = decodeToBigInt text)
    as Hd.
  { unfold decodeToBigInt.
    rewrite code_points_ascii_app, decode_for_app by done.
    replace (replicate n (symbol 0)) with (symbol <$> replicate n 0)
      by apply fmap_replicate.
    rewrite decode_for_symbols by (apply Forall_replicate; lia).
    fold (horner 60 (replicate n 0)).
    rewrite <- (app_nil_r (replicate n 0)), horner_replicate_0 by lia.
    by rewrite bind_Ok. }
  split_and!; [done| |unfold compareAsBigInt; by rewrite Hd..].
  unfold isValidBase60.
  rewrite code_points_ascii_app, isValid_for_app by done.
  replace (isValid_for (char_str <$> replicate n (symbol 0))) with true;
    [done|].
  clear. induction n as [|n IH]; [done|]. cbn [replicate fmap list_fmap].
  cbn [isValid_for].
  change (includes alphabet (char_str (symbol 0))) with true. exact IH.
Qed.

(** X9. Decoding is positional: the value of a concatenation of two
    decodable strings is the value of the first times 60 to the length of
    the second, plus the value of the second. *)
Theorem decodeToBigInt_app (a b : list Z) (va vb : Z) :
  decodeToBigInt a = Ok va → decodeToBigInt b = Ok vb →
  decodeToBigInt (a ++ b) = Ok (va * 60 ^ len b + vb).
Proof.
  intros Ha Hb.
  destruct (decodeToBigInt_valid a va Ha) as [Hva _].
  destruct (decodeToBigInt_valid b vb Hb) as [Hvb _].
  destruct (valid_symbols a Hva) as [Hea Hia].
  destruct (valid_symbols b Hvb) as [Heb Hib].
  unfold decodeToBigInt in *.
  rewrite code_points_ascii_app
    by (rewrite Hea; by apply symbols_ascii).
  rewrite decode_for_app.
  rewrite code_points_singletons in Ha
    by (rewrite Hea; by apply symbols_ascii).
  rewrite Ha, bind_Ok, decode_for_shift, Hb, bind_Ok.
  rewrite Heb, code_points_singletons by by apply symbols_ascii.
  unfold len. by rewrite !length_fmap.
Qed.

Lemma decodeToBigInt_app_witness :
  decodeToBigInt (lit "Az") = Ok 659 ∧ decodeToBigInt (lit "07") = Ok 7 ∧
  decodeToBigInt (lit "Az07") = Ok (659 * 60 ^ 2 + 7).
Proof.
  split; [reflexivity|]. split; [reflexivity|].
  exact (decodeToBigInt_app (lit "Az") (lit "07") 659 7 eq_refl eq_refl).
Defined.

(** X10. [isValidBase60] is a test of the code units: a string is valid
    exactly when each of its code units is one of the alphabet. *)
Theorem isValidBase60_code_units (text : list Z) :
  isValidBase60 text = forallb (λ c, bool_decide (c ∈ alphabet)) text.
Proof.
  destruct (isValidBase60 text) eqn:Hv; symmetry.
  - destruct (valid_symbols text Hv) as [Heq Hin]. rewrite Heq.
    apply forallb_forall. intros c [d [-> Hd]]%list_elem_of_In%list_elem_of_fmap.
    apply bool_decide_eq_true, symbol_elem.
    by eapply Forall_forall in Hin.
  - destruct (forallb _ text) eqn:Hall; [|done]. exfalso.
    assert (Forall (λ c, c ∈ alphabet) text) as Hin.
    { apply Forall_forall. intros c Hc%list_elem_of_In.
      rewrite forallb_forall in Hall. by apply Hall, bool_decide_eq_true in Hc. }
    assert (text = symbol <$> (rank <$> text) ∧ digits_in 60 (rank <$> text))
      as [Heq Hds].
    { clear -Hin. induction Hin as [|c text Hc _ [IH1 IH2]]; [by split; [|constructor]|].
      destruct (rank_symbol c Hc) as (_ & Hr & Hs).
      rewrite !fmap_cons, Hs. split; [by rewrite <- IH1|by constructor]. }
    rewrite Heq, symbols_valid in Hv by done. done.
Qed.

Lemma rank_of_symbol (d : Z) : 0 <= d < 60 → rank (symbol d) = d.
Proof.
  intros Hd. unfold rank. by destruct (symbol_facts d Hd) as (_ & -> & _).
Qed.

Lemma decodeToBigInt_bounds (s : list Z) (v : Z) :
  decodeToBigInt s = Ok v → 0 <= v < 60 ^ len s.
Proof.
  intros [Hvalid ->]%decodeToBigInt_valid.
  destruct (valid_symbols s Hvalid) as [_ Hin].
  pose proof (horner_bounds 60 ltac:(lia) _ Hin) as Hbd.
  by rewrite length_fmap in Hbd.
Qed.

(** Two strings of one length that decode to one value are equal. *)
Lemma decode_unique (s1 s2 : list Z) (v : Z) :
  decodeToBigInt s1 = Ok v → decodeToBigInt s2 = Ok v →
  length s1 = length s2 → s1 = s2.
Proof.
  intros [Hv1 He1]%decodeToBigInt_valid [Hv2 He2]%decodeToBigInt_valid Hlen.
  destruct (valid_symbols _ Hv1) as [Heq1 Hin1].
  destruct (valid_symbols _ Hv2) as [Heq2 Hin2].
  rewrite Heq1, Heq2. f_equal.
  apply (horner_inj 60); [lia| |done..|congruence].
  by rewrite !length_fmap.
Qed.

Lemma encodeBigInt_negative_pad (v w : Z) :
  v < 0 →
  encodeBigInt v (Some w) =
  if w <? 0 then Throw (EncodedLengthExceeds 0 w)
  else Ok (replicate (Z.to_nat w) (symbol 0)).
Proof.
  intros Hv. unfold encodeBigInt.
  destruct (Z.eqb_spec v 0); [lia|].
  unfold encode_fuel. cbn [encode_while].
  destruct (Z.ltb_spec 0 v); [lia|].
  rewrite leftPad_spec. change (len []) with 0. cbn [length].
  destruct (w <? 0); [done|]. by rewrite app_nil_r, Nat.sub_0_r.
Qed.

Lemma zeros_valid (n : nat) :
  isValidBase60 (replicate n (symbol 0)) = true ∧
  decodeToBigInt (replicate n (symbol 0)) = Ok 0.
Proof.
  replace (replicate n (symbol 0)) with (symbol <$> replicate n 0)
    by apply fmap_replicate.
  assert (digits_in 60 (replicate n 0)) by (apply Forall_replicate; lia).
  split; [by apply symbols_valid|].
  rewrite decodeToBigInt_symbols by done.
  rewrite <- (app_nil_r (replicate n 0)), horner_replicate_0 by lia. done.
Qed.

(** ** Encoding *)

(** X11. Whatever [encodeBigInt] returns is a valid Base60 string; it has
    exactly the requested width when one is given, and for a
    non-negative value it decodes to that value, padded or not. *)
Theorem encodeBigInt_result (v : Z) (padLength : option Z) (s : list Z) :
  encodeBigInt v padLength = Ok s →
  isValidBase60 s = true ∧
  (∀ w, padLength = Some w → len s = w) ∧
  (0 <= v → decodeToBigInt s = Ok v).
Proof.
  intros Henc. destruct (Z.le_gt_cases 0 v) as [Hv|Hv].
  - assert (∃ n, s = replicate n (symbol 0) ++ minimal_repr v ∧
                 ∀ w, padLength = Some w → len s = w) as (n & -> & Hw).
    { destruct padLength as [w|].
      - rewrite encodeBigInt_pad, leftPad_spec in Henc by done.
        destruct (Z.ltb_spec w (len (minimal_repr v))); [done|].
        injection Henc as <-. eexists. split; [done|].
        intros ? [= <-]. unfold len in *.
        rewrite length_app, length_replicate. lia.
      - rewrite encodeBigInt_minimal in Henc by done.
        injection Henc as <-. by exists 0%nat. }
    pose proof (decodeToBigInt_padded v n Hv) as Hd.
    split_and!; [|done|done]. by apply decodeToBigInt_valid in Hd as [? _].
  - split_and!; [| |lia].
    + destruct padLength as [w|].
      * rewrite encodeBigInt_negative_pad in Henc by done.
        destruct (w <? 0); [done|]. injection Henc as <-. apply zeros_valid.
      * rewrite encodeBigInt_negative in Henc by done. by injection Henc as <-.
    + intros w ->. rewrite encodeBigInt_negative_pad in Henc by done.
      destruct (Z.ltb_spec w 0); [done|]. injection Henc as <-.
      unfold len. rewrite length_replicate. lia.
Qed.

Lemma encodeBigInt_result_witness :
  encodeBigInt 3599 (Some 4) = Ok (lit "00zz") ∧
  isValidBase60 (lit "00zz") = true ∧ len (lit "00zz") = 4 ∧
  decodeToBigInt (lit "00zz") = Ok 3599.
Proof.
  split; [reflexivity|].
  destruct (encodeBigInt_result 3599 (Some 4) (lit "00zz") eq_refl)
    as (H1 & H2 & H3).
  split; [exact H1|]. split; [exact (H2 4 eq_refl)|]. apply H3. lia.
Defined.

(** X12. A negative value loses its sign: without a width it is encoded
    as the empty string, with a width as that many zero symbols, and by
    [encodeInt64] as eleven zero symbols, all of which decode to 0. *)
Theorem encodeBigInt_negative_as_zero (v : Z) :
  v < 0 →
  encodeBigInt v None = Ok [] ∧
  (∀ w, 0 <= w →
        encodeBigInt v (Some w) = Ok (replicate (Z.to_nat w) (symbol 0))) ∧
  encodeInt64 v = Ok (replicate 11 (symbol 0)) ∧
  (s ← encodeInt64 v; decodeInt64 s) = Ok 0.
Proof.
  intros Hv. split_and!.
  - by apply encodeBigInt_negative.
  - intros w Hw. rewrite encodeBigInt_negative_pad by done.
    by destruct (Z.ltb_spec w 0); [lia|].
  - unfold encodeInt64. by rewrite encodeBigInt_negative by done.
  - unfold encodeInt64. by rewrite encodeBigInt_negative by done.
Qed.

Lemma encodeBigInt_negative_as_zero_witness :
  -1 < 0 ∧ encodeBigInt (-1) None = Ok [] ∧
  encodeInt64 (-1) = Ok (lit "00000000000").
Proof.
  split; [lia|].
  destruct (encodeBigInt_negative_as_zero (-1) ltac:(lia)) as (H1 & _ & H3 & _).
  split; [exact H1|exact H3].
Defined.

(** A padded encoding of a non-negative value has the width asked for
    and decodes to the value. *)
Lemma encodeBigInt_pad_ok (v w : Z) (s : list Z) :
  0 <= v → encodeBigInt v (Some w) = Ok s →
  length s = Z.to_nat w ∧ decodeToBigInt s = Ok v.
Proof.
  intros Hv Henc. rewrite encodeBigInt_pad, leftPad_spec in Henc by done.
  destruct (Z.ltb_spec w (len (minimal_repr v))); [done|].
  injection Henc as <-. split; [|by apply decodeToBigInt_padded].
  unfold len in *. rewrite length_app, length_replicate. lia.
Qed.

(** X13. Fixed-width encodings sort like the numbers: for two
    non-negative values encoded at one width, the lexicographic
    comparison of the strings is the comparison of the values, and the
    strings are equal only for equal values. *)
Theorem encodeBigInt_order (v1 v2 w : Z) (s1 s2 : list Z) :
  0 <= v1 → 0 <= v2 →
  encodeBigInt v1 (Some w) = Ok s1 → encodeBigInt v2 (Some w) = Ok s2 →
  lex_compare s1 s2 =
  match v1 ?= v2 with
  | Lt => -1
  | Eq => 0
  | Gt => 1
  end ∧
  (s1 = s2 ↔ v1 = v2).
Proof.
  intros Hv1 Hv2 H1 H2.
  destruct (encodeBigInt_pad_ok _ _ _ Hv1 H1) as (Hw1 & Hd1).
  destruct (encodeBigInt_pad_ok _ _ _ Hv2 H2) as (Hw2 & Hd2).
  assert (length s1 = length s2) as Hlen by lia.
  apply decodeToBigInt_valid in Hd1 as Hx1. destruct Hx1 as [Hval1 Hx1].
  apply decodeToBigInt_valid in Hd2 as Hx2. destruct Hx2 as [Hval2 Hx2].
  destruct (valid_symbols _ Hval1) as [_ Hin1].
  destruct (valid_symbols _ Hval2) as [_ Hin2].
  split.
  - rewrite (lex_compare_ranks s1 s2) by done. by rewrite <- Hx1, <- Hx2.
  - split.
    + intros ->. congruence.
    + intros ->. by apply (decode_unique s1 s2 v2).
Qed.

Lemma encodeBigInt_order_witness :
  0 <= 59 ∧ 0 <= 60 ∧
  encodeBigInt 59 (Some 3) = Ok (lit "00z") ∧
  encodeBigInt 60 (Some 3) = Ok (lit "010") ∧
  lex_compare (lit "00z") (lit "010") = -1.
Proof.
  split; [lia|]. split; [lia|]. split; [reflexivity|]. split; [reflexivity|].
  destruct (encodeBigInt_order 59 60 3 (lit "00z") (lit "010")
              ltac:(lia) ltac:(lia) eq_refl eq_refl) as [H _].
  exact H.
Defined.

(** ** 64-bit integers *)

(** X14. [decodeInt64] returns exactly on the valid strings of 11
    characters. *)
Theorem decodeInt64_returns_iff (text : list Z) :
  (∃ v, decodeInt64 text = Ok v) ↔ len text = 11 ∧ isValidBase60 text = true.
Proof.
  unfold decodeInt64, FIXED_LEN_INT64.
  destruct (Z.eqb_spec (len text) 11) as [Hlen|Hlen]; cbn [negb].
  - split.
    + intros [v [Hv _]%decodeToBigInt_valid]. done.
    + intros [_ Hv]. destruct (valid_symbols text Hv) as [Heq Hin].
      rewrite Heq, decodeToBigInt_symbols by done. by eexists.
  - split; [by intros [? ?]|]. by intros [? _].
Qed.

(** X15. What [decodeInt64] returns lies from 0 below 60^11, and
    [encodeInt64] maps it back to the very string decoded. *)
Theorem decodeInt64_then_encodeInt64 (text : list Z) (v : Z) :
  decodeInt64 text = Ok v →
  0 <= v < 60 ^ 11 ∧ encodeInt64 v = Ok text.
Proof.
  unfold decodeInt64, FIXED_LEN_INT64.
  destruct (Z.eqb_spec (len text) 11) as [Hlen|Hlen]; cbn [negb]; [|done].
  intros Hd. pose proof (decodeToBigInt_bounds text v Hd) as Hbd.
  rewrite Hlen in Hbd. split; [done|].
  destruct (encode_fixed_width v 11 ltac:(lia) Hbd) as (s & Hs & Hls & Hds).
  unfold encodeInt64, FIXED_LEN_INT64.
  change (Z.of_nat 11) with 11 in Hs. rewrite Hs. f_equal.
  apply (decode_unique s text v); [done..|]. unfold len in Hlen. lia.
Qed.

Lemma decodeInt64_then_encodeInt64_witness :
  decodeInt64 (lit "zzzzzzzzzzz") = Ok (60 ^ 11 - 1) ∧
  2 ^ 64 <= 60 ^ 11 - 1 ∧
  encodeInt64 (60 ^ 11 - 1) = Ok (lit "zzzzzzzzzzz").
Proof.
  split; [reflexivity|]. split; [vm_compute; discriminate|].
  destruct (decodeInt64_then_encodeInt64 (lit "zzzzzzzzzzz") (60 ^ 11 - 1) eq_refl)
    as [_ H].
  exact H.
Defined.

(** ** Comparison *)

(** X16. [compareAsBigInt] returns 0 on two strings of one length only
    when they are the same string. *)
Theorem compareAsBigInt_zero_same (a b : list Z) :
  compareAsBigInt a b = Ok 0 → length a = length b → a = b.
Proof.
  unfold compareAsBigInt. intros Hc Hlen.
  destruct (decodeToBigInt a) as [va| |] eqn:Ha; [|done..].
  destruct (decodeToBigInt b) as [vb| |] eqn:Hb; [|done..].
  rewrite !bind_Ok in Hc.
  destruct (Z.ltb_spec va vb); [done|].
  destruct (Z.ltb_spec vb va); [done|].
  assert (va = vb) as -> by lia.
  by apply (decode_unique a b vb).
Qed.

Lemma compareAsBigInt_zero_same_witness :
  compareAsBigInt (lit "0Az") (lit "0Az") = Ok 0 ∧
  length (lit "0Az") = length (lit "0Az") ∧ lit "0Az" = lit "0Az".
Proof.
  split; [reflexivity|]. split; [reflexivity|].
  exact (compareAsBigInt_zero_same (lit "0Az") (lit "0Az") eq_refl eq_refl).
Defined.

(** X17. Across lengths [compareAsBigInt] compares magnitudes: a valid
    string is smaller than every longer valid string that does not start
    with the zero symbol. *)
Theorem compareAsBigInt_lengths (a b : list Z) (c : Z) :
  isValidBase60 a = true → isValidBase60 (c :: b) = true →
  c ≠ symbol 0 → (length a <= length b)%nat →
  compareAsBigInt a (c :: b) = Ok (-1) ∧
  compareAsBigInt (c :: b) a = Ok 1.
Proof.
  intros Ha Hb Hc Hlen.
  destruct (valid_symbols a Ha) as [Hea Hia].
  destruct (valid_symbols (c :: b) Hb) as [Heb Hib].
  pose proof (horner_bounds 60 ltac:(lia) _ Hia) as Hba.
  rewrite length_fmap in Hba.
  rewrite fmap_cons in Heb, Hib.
  assert (rank c ≠ 0) as Hrc.
  { intros Hz. apply Hc. injection Heb as Hce _. by rewrite Hce, Hz. }
  pose proof (horner_leading 60 _ _ ltac:(lia) Hib Hrc) as Hlow.
  rewrite length_fmap in Hlow.
  assert (60 ^ Z.of_nat (length a) <= 60 ^ Z.of_nat (length b))
    by (apply Z.pow_le_mono_r; lia).
  assert (decodeToBigInt a = Ok (horner 60 (rank <$> a))) as Hda
    by (rewrite Hea at 1; by apply decodeToBigInt_symbols).
  assert (decodeToBigInt (c :: b) = Ok (horner 60 (rank c :: (rank <$> b))))
    as Hdb by (rewrite Heb at 1; by apply (decodeToBigInt_symbols (_ :: _))).
  unfold compareAsBigInt.
  rewrite Hda, Hdb, !bind_Ok.
  destruct (Z.ltb_spec (horner 60 (rank <$> a))
                       (horner 60 (rank c :: (rank <$> b)))); [|lia].
  destruct (Z.ltb_spec (horner 60 (rank c :: (rank <$> b)))
                       (horner 60 (rank <$> a))); [lia|].
  done.
Qed.

Lemma compareAsBigInt_lengths_witness :
  isValidBase60 (lit "zz") = true ∧ isValidBase60 (lit "100") = true ∧
  compareAsBigInt (lit "zz") (lit "100") = Ok (-1) ∧
  compareAsBigInt (lit "100") (lit "zz") = Ok 1.
Proof.
  split; [reflexivity|]. split; [reflexivity|].
  exact (compareAsBigInt_lengths (lit "zz") (lit "00") 49
           eq_refl eq_refl ltac:(discriminate) ltac:(cbn; lia)).
Defined.

(** ** UUID *)

Lemma remove_hyphens_idemp (u : list Z) :
  remove_hyphens (remove_hyphens u) = remove_hyphens u.
Proof.
  unfold remove_hyphens. induction u as [|c u IH]; [done|].
  destruct (decide (c ≠ 45)) as [Hc|Hc].
  - rewrite !filter_cons_True by done. by rewrite IH.
  - by rewrite filter_cons_False by done.
Qed.

Lemma bigIntToBytes_exceeds (v : Z) (n : nat) :
  256 ^ Z.of_nat n <= v →
  bigIntToBytes v (Some (Z.of_nat n)) = Throw DecodedBytesExceed.
Proof.
  intros Hle.
  assert (0 < 256 ^ Z.of_nat n) by (apply Z.pow_pos_nonneg; lia).
  destruct (bigIntToBytes_bytes v ltac:(lia)) as (bs & _ & Hin & Hval & _ & ->).
  pose proof (horner_bounds 256 ltac:(lia) _ Hin) as Hbd. rewrite Hval in Hbd.
  unfold len.
  destruct (Z.ltb_spec (Z.of_nat n) (Z.of_nat (length bs))) as [|Hge]; [done|].
  exfalso.
  assert (256 ^ Z.of_nat (length bs) <= 256 ^ Z.of_nat n)
    by (apply Z.pow_le_mono_r; lia).
  lia.
Qed.

Lemma bigIntToBytes_16_exceeds (v : Z) :
  2 ^ 128 <= v → bigIntToBytes v (Some 16) = Throw DecodedBytesExceed.
Proof. intros Hge. exact (bigIntToBytes_exceeds v 16 Hge). Qed.

(** The two-digit hexadecimal text of a byte: lower-case digits that
    parse back to the byte. *)
Lemma byte_hex_facts (b : Z) :
  0 <= b < 256 →
  ∃ h1 h2, padStart (toString b 16) 2 (lit "0") = [h1; h2] ∧
           is_hex h1 = true ∧ is_hex h2 = true ∧
           ascii_lower h1 = h1 ∧ ascii_lower h2 = h2 ∧
           toUint8 (parseInt [h1; h2] 16) = b.
Proof.
  intros Hb.
  pose proof (range_check
    (λ b, match padStart (toString b 16) 2 (lit "0") with
          | [h1; h2] =>
              is_hex h1 && is_hex h2 && (ascii_lower h1 =? h1) &&
              (ascii_lower h2 =? h2) && (toUint8 (parseInt [h1; h2] 16) =? b)
          | _ => false
          end)
    0 256 ltac:(by vm_compute) b Hb) as H.
  cbn beta in H.
  destruct (padStart (toString b 16) 2 (lit "0")) as [|h1 [|h2 [|]]];
    try discriminate.
  rewrite !andb_true_iff, !Z.eqb_eq in H.
  destruct H as ((((H1 & H2) & H3) & H4) & H5).
  by exists h1, h2.
Qed.

Lemma bytes_hex_text (bs : list Z) :
  digits_in 256 bs →
  let hex := concat ((λ b, padStart (toString b 16) 2 (lit "0")) <$> bs) in
  length hex = (length bs * 2)%nat ∧ forallb is_hex hex = true ∧
  toLowerCase hex = hex ∧ hex_to_bytes hex (length bs) = bs.
Proof.
  induction 1 as [|b bs Hb _ (IH1 & IH2 & IH3 & IH4)]; [done|].
  destruct (byte_hex_facts b Hb) as (h1 & h2 & Heq & H1 & H2 & H3 & H4 & H5).
  cbn zeta. rewrite fmap_cons. cbn [concat]. rewrite Heq.
  cbn [app length]. rewrite hex_to_bytes_cons.
  unfold toLowerCase in *. rewrite !fmap_cons. cbn [forallb].
  cbn zeta in IH1, IH2, IH3, IH4.
  rewrite H1, H2, H3, H4, H5, IH1, IH2, IH3, IH4. done.
Qed.

(** What [decodeUUID] returns for a string that decodes to a value below
    2^128. *)
Lemma decodeUUID_ok (text : list Z) (v : Z) :
  decodeToBigInt text = Ok v → v < 2 ^ 128 →
  ∃ hex, decodeUUID text = Ok (hyphenate hex) ∧
         length hex = 32%nat ∧ forallb is_hex hex = true ∧
         toLowerCase hex = hex ∧ horner 256 (hex_to_bytes hex 16) = v.
Proof.
  intros Hd Hlt. pose proof (decodeToBigInt_bounds text v Hd) as [Hv _].
  destruct (bigIntToBytes_fixed v 16 ltac:(lia)) as (bs & Hbs & Hbl & Hbin & Hbv).
  { change (256 ^ Z.of_nat 16) with (2 ^ 128). lia. }
  change (Some (Z.of_nat 16)) with (Some 16) in Hbs.
  destruct (bytes_hex_text bs Hbin) as (H1 & H2 & H3 & H4).
  cbn zeta in H1, H2, H3, H4. rewrite Hbl in H1, H4.
  eexists. split_and!; [|exact H1|exact H2|exact H3|by rewrite H4].
  unfold decodeUUID. by rewrite Hd, bind_Ok, Hbs, bind_Ok.
Qed.

(** What [encodeUUID] returns when 32 characters are left without the
    hyphens. *)
Lemma encodeUUID_ok (u : list Z) :
  len (remove_hyphens u) = 32 →
  ∃ s, encodeUUID u = Ok s ∧ length s = 22%nat ∧
       decodeToBigInt s = Ok (horner 256 (hex_to_bytes (remove_hyphens u) 16)) ∧
       horner 256 (hex_to_bytes (remove_hyphens u) 16) < 2 ^ 128.
Proof.
  intros Hlen.
  destruct (hex_to_bytes_in (remove_hyphens u) 16) as [Hbl Hbin].
  pose proof (horner_bounds 256 ltac:(lia) _ Hbin) as Hbd.
  rewrite Hbl in Hbd.
  assert (256 ^ Z.of_nat 16 < 60 ^ Z.of_nat 22) as Hfit by done.
  destruct (encode_fixed_width (horner 256 (hex_to_bytes (remove_hyphens u) 16))
              22 ltac:(lia) ltac:(lia)) as (s & Hs & Hls & Hds).
  exists s. split_and!; [|done|done|].
  - unfold encodeUUID. rewrite Hlen.
    cbn [Z.eqb Pos.eqb negb]. rewrite bytesToBigInt_horner. exact Hs.
  - change (256 ^ Z.of_nat 16) with (2 ^ 128) in Hbd. lia.
Qed.

(** X18. [encodeUUID] returns exactly when 32 characters are left after
    the hyphens are removed, wherever the hyphens stand; its only error
    is the invalid-UUID one; and what it returns is 22 valid symbols that
    decode to the big-endian value of the 16 parsed bytes. *)
Theorem encodeUUID_returns_iff (u : list Z) :
  ((∃ s, encodeUUID u = Ok s) ↔ len (remove_hyphens u) = 32) ∧
  (∀ e, encodeUUID u = Throw e → e = InvalidUUID) ∧
  encodeUUID (remove_hyphens u) = encodeUUID u ∧
  ∀ s, encodeUUID u = Ok s →
       len s = 22 ∧ isValidBase60 s = true ∧
       decodeToBigInt s = Ok (bytesToBigInt (hex_to_bytes (remove_hyphens u) 16)).
Proof.
  assert (encodeUUID (remove_hyphens u) = encodeUUID u) as Hidem
      by (unfold encodeUUID; by rewrite remove_hyphens_idemp).
  destruct (decide (len (remove_hyphens u) = 32)) as [Hlen|Hlen].
  - destruct (encodeUUID_ok u Hlen) as (s & Hs & Hls & Hds & _).
    rewrite Hs. split; [|split; [intros ? ?; discriminate|split; [congruence|]]].
    + split; [done|]. by exists s.
    + intros ? [= <-]. rewrite bytesToBigInt_horner.
      split_and!; [unfold len; by rewrite Hls| |done].
      by apply decodeToBigInt_valid in Hds as [? _].
  - rewrite (encodeUUID_wrong_length u Hlen).
    split; [|split; [by intros ? [= <-]|split; [|done]]].
    + split; [by intros [? ?]|done].
    + rewrite Hidem. by apply encodeUUID_wrong_length.
Qed.

(** X19. [decodeUUID] on any string, of any length: an invalid character
    is reported as by [decodeToBigInt]; a value from 2^128 on is rejected
    with the fixed-length error; a smaller value gives a UUID text in lower
    case whose 16 bytes have that value. *)
Theorem decodeUUID_cases (text : list Z) :
  match decodeToBigInt text with
  | Ok v =>
      if v <? 2 ^ 128
      then ∃ u, decodeUUID text = Ok u ∧ is_uuid u = true ∧
                toLowerCase u = u ∧
                bytesToBigInt (hex_to_bytes (remove_hyphens u) 16) = v
      else decodeUUID text = Throw DecodedBytesExceed
  | Throw e => decodeUUID text = Throw e
  | OutOfFuel => False
  end.
Proof.
  destruct (decodeToBigInt text) as [v|e|] eqn:Hd.
  - destruct (Z.ltb_spec v (2 ^ 128)) as [Hlt|Hge].
    + destruct (decodeUUID_ok text v Hd Hlt) as (hex & Hu & Hl & Hh & Hlow & Hv).
      destruct (hyphenate_facts hex Hl Hh) as [Hisu Hrm].
      exists (hyphenate hex). split_and!; [done..| |].
      * by rewrite toLowerCase_hyphenate, Hlow.
      * by rewrite Hrm, bytesToBigInt_horner.
    + unfold decodeUUID. rewrite Hd, bind_Ok.
      by rewrite (bigIntToBytes_16_exceeds v Hge).
  - unfold decodeUUID. by rewrite Hd.
  - unfold decodeToBigInt in Hd.
    destruct (decode_for_cases (code_points text) 0 (code_points_shape text))
      as [(_ & _ & ? & H)|(? & _ & _ & _ & H)]; congruence.
Qed.

(** X20. What [decodeUUID] returns is a UUID text that [encodeUUID] maps
    to a string of the same value, and to the decoded string itself when
    that has 22 characters. *)
Theorem decodeUUID_then_encodeUUID (text u : list Z) :
  decodeUUID text = Ok u →
  is_uuid u = true ∧
  ∃ s, encodeUUID u = Ok s ∧ decodeToBigInt s = decodeToBigInt text ∧
       (len text = 22 → s = text).
Proof.
  intros Hu. unfold decodeUUID in Hu.
  destruct (decodeToBigInt text) as [v|e|] eqn:Hd; [|done..].
  pose proof (decodeToBigInt_bounds text v Hd) as [Hv _].
  destruct (Z.lt_ge_cases v (2 ^ 128)) as [Hlt|Hge].
  - destruct (decodeUUID_ok text v Hd Hlt) as (hex & Hu' & Hl & Hh & Hlow & Hval).
    unfold decodeUUID in Hu'. rewrite Hd in Hu'. rewrite Hu' in Hu.
    injection Hu as <-.
    destruct (hyphenate_facts hex Hl Hh) as [Hisu Hrm].
    split; [done|].
    destruct (encodeUUID_ok (hyphenate hex)) as (s & Hs & Hls & Hds & _).
    { rewrite Hrm. unfold len. by rewrite Hl. }
    rewrite Hrm, Hval in Hds.
    exists s. split_and!; [done|done|].
    intros Hlen. apply (decode_unique s text v); [done..|].
    unfold len in Hlen. lia.
  - rewrite bind_Ok, (bigIntToBytes_16_exceeds v Hge) in Hu. done.
Qed.

Lemma decodeUUID_then_encodeUUID_witness :
  decodeUUID (lit "0zzzzzzzzzzzzzzzzzzzzz")
  = Ok (lit "1080e72b-d6dd-49a3-053d-3bffffffffff") ∧
  is_uuid (lit "1080e72b-d6dd-49a3-053d-3bffffffffff") = true ∧
  encodeUUID (lit "1080e72b-d6dd-49a3-053d-3bffffffffff")
  = Ok (lit "0zzzzzzzzzzzzzzzzzzzzz").
Proof.
  assert (decodeUUID (lit "0zzzzzzzzzzzzzzzzzzzzz")
          = Ok (lit "1080e72b-d6dd-49a3-053d-3bffffffffff")) as Hd
      by reflexivity.
  split; [exact Hd|].
  destruct (decodeUUID_then_encodeUUID _ _ Hd) as (Hu & s & Hs & _ & Heq).
  split; [exact Hu|]. rewrite (Heq eq_refl) in Hs. exact Hs.
Defined.

(** ** ULID *)

Lemma fixed_digits_spec (r : Z) (n : nat) (v : Z) :
  1 < r → 0 <= v < r ^ Z.of_nat n →
  length (fixed_digits r n v) = n ∧ digits_in r (fixed_digits r n v) ∧
  horner r (fixed_digits r n v) = v.
Proof.
  intros Hr Hv. unfold fixed_digits.
  destruct (digits_spec r Hr v ltac:(lia)) as (Hin & Hval & _ & _).
  pose proof (digits_length r Hr v n Hv).
  split_and!.
  - rewrite length_app, length_replicate. lia.
  - apply Forall_app. split; [|done]. apply Forall_replicate. lia.
  - by rewrite horner_replicate_0.
Qed.

Lemma crockford_symbol_facts (d : Z) :
  0 <= d < 32 →
  bool_decide (ascii_upper (crockford_symbol d) ∈ crockford) = true ∧
  ascii_upper (crockford_symbol d) = crockford_symbol d ∧
  crockford_value (crockford_symbol d) = d.
Proof.
  intros Hd.
  pose proof (range_check
    (λ d, bool_decide (ascii_upper (crockford_symbol d) ∈ crockford) &&
          (ascii_upper (crockford_symbol d) =? crockford_symbol d) &&
          (crockford_value (crockford_symbol d) =? d))
    0 32 ltac:(by vm_compute) d Hd) as H.
  cbn beta in H. rewrite !andb_true_iff, !Z.eqb_eq in H.
  by destruct H as ((H1 & H2) & H3).
Qed.

(** The text of a list of 26 five-bit groups is a ULID text in upper
    case that stands for their value. *)
Lemma crockford_text (ds : list Z) :
  length ds = 26%nat → digits_in 32 ds →
  is_ulid (crockford_symbol <$> ds) = true ∧
  toUpperCase (crockford_symbol <$> ds) = crockford_symbol <$> ds ∧
  ulid_value (crockford_symbol <$> ds) = horner 32 ds.
Proof.
  intros Hlen Hin. unfold is_ulid, toUpperCase, ulid_value.
  rewrite length_fmap, Hlen. cbn [Nat.eqb andb].
  assert (forallb (λ c, bool_decide (ascii_upper c ∈ crockford))
                  (crockford_symbol <$> ds) = true ∧
          ascii_upper <$> (crockford_symbol <$> ds) = crockford_symbol <$> ds ∧
          crockford_value <$> (crockford_symbol <$> ds) = ds)
    as (H1 & H2 & H3).
  { clear Hlen. induction Hin as [|d ds Hd _ (IH1 & IH2 & IH3)]; [done|].
    destruct (crockford_symbol_facts d Hd) as (F1 & F2 & F3).
    rewrite !fmap_cons. cbn [forallb]. by rewrite F1, F2, F3, IH1, IH2, IH3. }
  by rewrite H1, H2, H3.
Qed.

(** [encodeULID] on a ULID text is the fixed-width encoding of its
    value. *)
Lemma encodeULID_value (u : list Z) :
  is_ulid u = true →
  encodeULID u = (raw ← encodeBigInt (ulid_value u) None; leftPad raw 22) ∧
  0 <= ulid_value u < 2 ^ 130.
Proof.
  intros Hu. pose proof Hu as Hre. rewrite <- is_ulid_regex in Hre.
  unfold ulid_regex_test in Hre.
  apply andb_true_iff in Hre as [Hlen%Nat.eqb_eq Hclass].
  destruct (ulid_for_value u 0 Hclass) as (Hfor & Hin & Hascii & _).
  pose proof (horner_bounds 32 ltac:(lia) _ Hin) as Hbd.
  rewrite length_fmap, Hlen in Hbd.
  fold (horner 32 (crockford_value <$> u)) in Hfor.
  fold (ulid_value u) in Hfor, Hbd.
  split; [|by change (32 ^ Z.of_nat 26) with (2 ^ 130) in Hbd].
  unfold encodeULID. rewrite is_ulid_regex, Hu. cbn [negb].
  by rewrite code_points_singletons, Hfor, bind_Ok.
Qed.

(** What [decodeULID] returns for 22 characters that decode to a value
    below 2^128. *)
Lemma decodeULID_ok (text : list Z) (v : Z) :
  len text = 22 → decodeToBigInt text = Ok v → v < 2 ^ 128 →
  ∃ ds, decodeULID text = Ok (crockford_symbol <$> ds) ∧
        length ds = 26%nat ∧ digits_in 32 ds ∧ horner 32 ds = v.
Proof.
  intros Hlen Hd Hlt. pose proof (decodeToBigInt_bounds text v Hd) as [Hv _].
  destruct (bigIntToBytes_fixed v 16 ltac:(lia)) as (bs & Hbs & Hbl & Hbin & Hbv).
  { change (256 ^ Z.of_nat 16) with (2 ^ 128). lia. }
  change (Some (Z.of_nat 16)) with (Some 16) in Hbs.
  destruct (fixed_digits_spec 32 26 v ltac:(lia)) as (Hfl & Hfin & Hfv).
  { change (32 ^ Z.of_nat 26) with (2 ^ 130). lia. }
  exists (fixed_digits 32 26 v). split_and!; [|done..].
  unfold decodeULID. rewrite Hlen. cbn [Z.eqb Pos.eqb negb].
  rewrite Hd, bind_Ok, Hbs, bind_Ok. f_equal.
  apply bytes_to_crockford_digits; [done..|congruence].
Qed.

(** X21. [encodeULID] on any string: a string that is no ULID text is
    rejected with the format error; a ULID text whose value is below
    60^22 is encoded to 22 characters that decode to its value; from
    60^22 on the 23 symbols do not fit and [leftPad] throws.  The second
    check of the characters never throws. *)
Theorem encodeULID_cases (u : list Z) :
  if is_ulid u then
    if ulid_value u <? 60 ^ 22
    then ∃ s, encodeULID u = Ok s ∧ len s = 22 ∧
              decodeToBigInt s = Ok (ulid_value u)
    else encodeULID u = Throw (EncodedLengthExceeds 23 22)
  else encodeULID u = Throw InvalidULIDFormat.
Proof.
  destruct (is_ulid u) eqn:Hu.
  - destruct (encodeULID_value u Hu) as [-> Hbd].
    destruct (Z.ltb_spec (ulid_value u) (60 ^ 22)) as [Hlt|Hge].
    + destruct (encode_fixed_width (ulid_value u) 22 ltac:(lia) ltac:(lia))
        as (s & Hs & Hls & Hds).
      exists s. split_and!; [done| |done]. unfold len. by rewrite Hls.
    + rewrite encodeBigInt_minimal, bind_Ok, leftPad_spec by lia.
      pose proof (minimal_repr_length (ulid_value u) 22 ltac:(lia) ltac:(lia))
        as H22.
      pose proof (minimal_repr_length (ulid_value u) 23 ltac:(lia) ltac:(lia))
        as H23.
      assert (2 ^ 130 < 60 ^ Z.of_nat 23) as Hfit by done.
      assert (length (minimal_repr (ulid_value u)) = 23%nat) as Hl.
      { apply proj2 in H23. specialize (H23 ltac:(lia)).
        destruct (decide (length (minimal_repr (ulid_value u)) <= 22)%nat)
          as [Hle|Hgt]; [|lia].
        apply H22 in Hle. change (Z.of_nat 22) with 22 in Hle. lia. }
      unfold len. rewrite Hl. done.
  - unfold encodeULID. by rewrite is_ulid_regex, Hu.
Qed.

(** X22. A ULID text whose value is from 2^128 below 60^22 is encoded,
    but what [encodeULID] returns for it [decodeULID] rejects with the
    fixed-length error. *)
Theorem encodeULID_beyond_128_bits (u : list Z) :
  is_ulid u = true → 2 ^ 128 <= ulid_value u → ulid_value u < 60 ^ 22 →
  ∃ s, encodeULID u = Ok s ∧ decodeULID s = Throw DecodedBytesExceed.
Proof.
  intros Hu Hge Hlt.
  destruct (encodeULID_value u Hu) as [-> Hbd].
  destruct (encode_fixed_width (ulid_value u) 22 ltac:(lia) ltac:(lia))
    as (s & Hs & Hls & Hds).
  exists s. split; [done|].
  unfold decodeULID, len. rewrite Hls. cbn [Z.of_nat Pos.of_succ_nat Pos.succ].
  cbn [Z.eqb Pos.eqb negb].
  by rewrite Hds, bind_Ok, (bigIntToBytes_16_exceeds _ Hge).
Qed.

Lemma encodeULID_beyond_128_bits_witness :
  is_ulid (lit "80000000000000000000000000") = true ∧
  2 ^ 128 <= ulid_value (lit "80000000000000000000000000") ∧
  ulid_value (lit "80000000000000000000000000") < 60 ^ 22 ∧
  ∃ s, encodeULID (lit "80000000000000000000000000") = Ok s ∧
       decodeULID s = Throw DecodedBytesExceed.
Proof.
  split; [reflexivity|]. split; [vm_compute; discriminate|].
  split; [reflexivity|].
  apply (encodeULID_beyond_128_bits (lit "80000000000000000000000000"));
    [reflexivity|vm_compute; discriminate|reflexivity].
Defined.

(** X23. [decodeULID] on any string: the length is checked first; then
    an invalid character is reported as by [decodeToBigInt]; a value from
    2^128 on is rejected with the fixed-length error; a smaller value
    gives a ULID text in upper case that stands for it. *)
Theorem decodeULID_cases (text : list Z) :
  if negb (len text =? 22) then decodeULID text = Throw ExpectedULIDChars
  else
    match decodeToBigInt text with
    | Ok v =>
        if v <? 2 ^ 128
        then ∃ u, decodeULID text = Ok u ∧ is_ulid u = true ∧
                  toUpperCase u = u ∧ ulid_value u = v
        else decodeULID text = Throw DecodedBytesExceed
    | Throw e => decodeULID text = Throw e
    | OutOfFuel => False
    end.
Proof.
  destruct (Z.eqb_spec (len text) 22) as [Hlen|Hlen]; cbn [negb].
  - destruct (decodeToBigInt text) as [v|e|] eqn:Hd.
    + destruct (Z.ltb_spec v (2 ^ 128)) as [Hlt|Hge].
      * destruct (decodeULID_ok text v Hlen Hd Hlt) as (ds & Hu & Hl & Hin & Hv).
        destruct (crockford_text ds Hl Hin) as (H1 & H2 & H3).
        exists (crockford_symbol <$> ds). split_and!; [done..|congruence].
      * unfold decodeULID. rewrite Hlen. cbn [Z.eqb Pos.eqb negb].
        by rewrite Hd, bind_Ok, (bigIntToBytes_16_exceeds v Hge).
    + unfold decodeULID. rewrite Hlen. cbn [Z.eqb Pos.eqb negb].
      by rewrite Hd.
    + unfold decodeToBigInt in Hd.
      destruct (decode_for_cases (code_points text) 0 (code_points_shape text))
        as [(_ & _ & ? & H)|(? & _ & _ & _ & H)]; congruence.
  - unfold decodeULID. by destruct (Z.eqb_spec (len text) 22).
Qed.

(** X24. What [decodeULID] returns is a ULID text of a 128-bit value that
    [encodeULID] maps back to the very string decoded. *)
Theorem decodeULID_then_encodeULID (text u : list Z) :
  decodeULID text = Ok u →
  is_ulid u = true ∧ ulid_value u < 2 ^ 128 ∧ encodeULID u = Ok text.
Proof.
  intros Hu. unfold decodeULID in Hu.
  destruct (Z.eqb_spec (len text) 22) as [Hlen|Hlen]; cbn [negb] in Hu; [|done].
  destruct (decodeToBigInt text) as [v|e|] eqn:Hd; [|done..].
  pose proof (decodeToBigInt_bounds text v Hd) as [Hv _].
  destruct (Z.lt_ge_cases v (2 ^ 128)) as [Hlt|Hge].
  - destruct (decodeULID_ok text v Hlen Hd Hlt) as (ds & Hu' & Hl & Hin & Hval).
    unfold decodeULID in Hu'. rewrite Hlen, Hd in Hu'. cbn [Z.eqb Pos.eqb negb] in Hu'.
    rewrite Hu' in Hu. injection Hu as <-.
    destruct (crockford_text ds Hl Hin) as (H1 & H2 & H3).
    rewrite Hval in H3.
    split; [done|]. split; [by rewrite H3|].
    destruct (encodeULID_value _ H1) as [-> _]. rewrite H3.
    assert (2 ^ 128 < 60 ^ Z.of_nat 22) as Hfit by done.
    destruct (encode_fixed_width v 22 ltac:(lia) ltac:(lia))
      as (s & Hs & Hls & Hds).
    change (Z.of_nat 22) with 22 in Hs. rewrite Hs. f_equal.
    apply (decode_unique s text v); [done..|]. unfold len in Hlen. lia.
  - rewrite bind_Ok, (bigIntToBytes_16_exceeds v Hge) in Hu. done.
Qed.

Lemma decodeULID_then_encodeULID_witness :
  decodeULID (lit "0zzzzzzzzzzzzzzzzzzzzz")
  = Ok (lit "0GG3KJQNPX96HGAF9VZZZZZZZZ") ∧
  encodeULID (lit "0GG3KJQNPX96HGAF9VZZZZZZZZ") = Ok (lit "0zzzzzzzzzzzzzzzzzzzzz").
Proof.
  assert (decodeULID (lit "0zzzzzzzzzzzzzzzzzzzzz")
          = Ok (lit "0GG3KJQNPX96HGAF9VZZZZZZZZ")) as Hd by reflexivity.
  split; [exact Hd|].
  by destruct (decodeULID_then_encodeULID _ _ Hd) as (_ & _ & H).
Defined.

(** X25. UUID and ULID share the 22-character space: what [encodeUUID]
    returns for a UUID text [decodeULID] decodes to the ULID text of the
    same 128-bit value. *)
Theorem decodeULID_encodeUUID (u : list Z) :
  is_uuid u = true →
  ∃ s t, encodeUUID u = Ok s ∧ decodeULID s = Ok t ∧ is_ulid t = true ∧
         ulid_value t = bytesToBigInt (hex_to_bytes (remove_hyphens u) 16).
Proof.
  intros (hex & Hlen & _ & _ & Hrm)%uuid_shape.
  destruct (encodeUUID_ok u) as (s & Hs & Hls & Hds & Hlt).
  { rewrite Hrm. unfold len. by rewrite Hlen. }
  destruct (decodeULID_ok s _ ltac:(unfold len; by rewrite Hls) Hds Hlt)
    as (ds & Ht & Hl & Hin & Hv).
  destruct (crockford_text ds Hl Hin) as (H1 & _ & H3).
  exists s, (crockford_symbol <$> ds).
  split_and!; [done..|]. by rewrite H3, Hv, bytesToBigInt_horner.
Qed.

Lemma decodeULID_encodeUUID_witness :
  is_uuid (lit "1080e72b-d6dd-49a3-053d-3bffffffffff") = true ∧
  encodeUUID (lit "1080e72b-d6dd-49a3-053d-3bffffffffff")
  = Ok (lit "0zzzzzzzzzzzzzzzzzzzzz") ∧
  decodeULID (lit "0zzzzzzzzzzzzzzzzzzzzz")
  = Ok (lit "0GG3KJQNPX96HGAF9VZZZZZZZZ").
Proof.
  split; [reflexivity|].
  destruct (decodeULID_encodeUUID
              (lit "1080e72b-d6dd-49a3-053d-3bffffffffff") eq_refl)
    as (s & t & Hs & Ht & _).
  split; reflexivity.
Defined.

(** ** The sign check of [bigIntToBytes] *)

(** X26. [bigIntToBytes] rejects every negative value, with or without a
    fixed length; the decoders never meet that error, as what
    [decodeToBigInt] returns is not negative. *)
Theorem negative_bytes_rejected (v : Z) (fixedLength : option Z) (text : list Z) :
  (v < 0 → bigIntToBytes v fixedLength = Throw NegativeBigInt) ∧
  (0 <= v → bigIntToBytes v fixedLength ≠ Throw NegativeBigInt) ∧
  decodeToBytes text ≠ Throw NegativeBigInt ∧
  decodeUUID text ≠ Throw NegativeBigInt ∧
  decodeULID text ≠ Throw NegativeBigInt.
Proof.
  assert (∀ w fl, 0 <= w → bigIntToBytes w fl ≠ Throw NegativeBigInt) as Hpos.
  { intros w fl Hw.
    destruct (bigIntToBytes_bytes w Hw) as (bs & _ & _ & _ & _ & ->).
    destruct fl as [n|]; [|done]. by destruct (n <? len bs). }
  assert (∀ fl, (x ← decodeToBigInt text; bigIntToBytes x fl)
                ≠ Throw NegativeBigInt) as Hdec.
  { intros fl. destruct (decodeToBigInt text) as [x|e|] eqn:Hd.
    - rewrite bind_Ok. apply Hpos. by apply decodeToBigInt_bounds in Hd as [? _].
    - rewrite bind_Throw. intros [= ->]. unfold decodeToBigInt in Hd.
      destruct (decode_for_cases (code_points text) 0 (code_points_shape text))
        as [(_ & _ & ? & H)|(? & _ & _ & _ & H)]; congruence.
    - done. }
  split_and!.
  - intros Hv. unfold bigIntToBytes. by destruct (Z.ltb_spec v 0); [|lia].
  - apply Hpos.
  - apply Hdec.
  - unfold decodeUUID. specialize (Hdec (Some 16)).
    destruct (decodeToBigInt text) as [x|e|]; [|done..].
    rewrite bind_Ok in *. by destruct (bigIntToBytes x (Some 16)).
  - unfold decodeULID. destruct (negb (len text =? 22)); [done|].
    specialize (Hdec (Some 16)).
    destruct (decodeToBigInt text) as [x|e|]; [|done..].
    rewrite bind_Ok in *. by destruct (bigIntToBytes x (Some 16)).
Qed.

(** ** Ordering of the identifiers *)

(** Two decodable strings of one length compare lexicographically as
    their values do. *)
Lemma lex_compare_values (s1 s2 : list Z) (v1 v2 : Z) :
  decodeToBigInt s1 = Ok v1 → decodeToBigInt s2 = Ok v2 →
  length s1 = length s2 →
  lex_compare s1 s2 =
  match v1 ?= v2 with
  | Lt => -1
  | Eq => 0
  | Gt => 1
  end.
Proof.
  intros [Hval1 ->]%decodeToBigInt_valid [Hval2 ->]%decodeToBigInt_valid Hlen.
  destruct (valid_symbols _ Hval1) as [_ Hin1].
  destruct (valid_symbols _ Hval2) as [_ Hin2].
  by apply lex_compare_ranks.
Qed.

(** X27. The encodings of two ULID texts compare, lexicographically and
    by [compareAsBigInt], as the values of the ULIDs do. *)
Theorem encodeULID_order (u1 u2 s1 s2 : list Z) :
  encodeULID u1 = Ok s1 → encodeULID u2 = Ok s2 →
  lex_compare s1 s2 =
  match ulid_value u1 ?= ulid_value u2 with
  | Lt => -1
  | Eq => 0
  | Gt => 1
  end ∧
  compareAsBigInt s1 s2 = Ok (lex_compare s1 s2).
Proof.
  assert (∀ u s, encodeULID u = Ok s →
                 length s = 22%nat ∧ decodeToBigInt s = Ok (ulid_value u))
    as Hone.
  { intros u s Hs.
    assert (is_ulid u = true) as Hu.
    { destruct (is_ulid u) eqn:E; [done|].
      unfold encodeULID in Hs. by rewrite is_ulid_regex, E in Hs. }
    destruct (encodeULID_value u Hu) as [Heq Hbd]. rewrite Heq in Hs.
    rewrite encodeBigInt_minimal, bind_Ok, leftPad_spec in Hs by lia.
    destruct (Z.ltb_spec 22 (len (minimal_repr (ulid_value u)))); [done|].
    injection Hs as <-. split; [|apply decodeToBigInt_padded; lia].
    unfold len in *. rewrite length_app, length_replicate. lia. }
  intros H1 H2.
  destruct (Hone _ _ H1) as [Hl1 Hd1]. destruct (Hone _ _ H2) as [Hl2 Hd2].
  rewrite (lex_compare_values s1 s2 _ _ Hd1 Hd2) by congruence.
  split; [done|].
  unfold compareAsBigInt. rewrite Hd1, Hd2, !bind_Ok.
  destruct (Z.compare_spec (ulid_value u1) (ulid_value u2)) as [He|Hl|Hg].
  - rewrite He, Z.ltb_irrefl. done.
  - by destruct (Z.ltb_spec (ulid_value u1) (ulid_value u2)); [|lia].
  - destruct (Z.ltb_spec (ulid_value u1) (ulid_value u2)); [lia|].
    by destruct (Z.ltb_spec (ulid_value u2) (ulid_value u1)); [|lia].
Qed.

Lemma encodeULID_order_witness :
  encodeULID (lit "01H8J5N3Z9V8XK8E2X5PWSQ4M0") = Ok (lit "05aqfs7eD9IqZJfx2bcRR8") ∧
  encodeULID (lit "01h8j5n3z9v8xk8e2x5pwsq4m1") = Ok (lit "05aqfs7eD9IqZJfx2bcRR9") ∧
  lex_compare (lit "05aqfs7eD9IqZJfx2bcRR8") (lit "05aqfs7eD9IqZJfx2bcRR9") = -1.
Proof.
  assert (encodeULID (lit "01H8J5N3Z9V8XK8E2X5PWSQ4M0")
          = Ok (lit "05aqfs7eD9IqZJfx2bcRR8")) as H1 by (vm_compute; reflexivity).
  assert (encodeULID (lit "01h8j5n3z9v8xk8e2x5pwsq4m1")
          = Ok (lit "05aqfs7eD9IqZJfx2bcRR9")) as H2 by (vm_compute; reflexivity).
  split; [exact H1|]. split; [exact H2|].
  destruct (encodeULID_order _ _ _ _ H1 H2) as [-> _].
  vm_compute. reflexivity.
Defined.

(** X28. The encodings of two UUID texts compare lexicographically as
    the big-endian values of their 16 bytes do. *)
Theorem encodeUUID_order (u1 u2 s1 s2 : list Z) :
  encodeUUID u1 = Ok s1 → encodeUUID u2 = Ok s2 →
  lex_compare s1 s2 =
  match bytesToBigInt (hex_to_bytes (remove_hyphens u1) 16)
        ?= bytesToBigInt (hex_to_bytes (remove_hyphens u2) 16) with
  | Lt => -1
  | Eq => 0
  | Gt => 1
  end.
Proof.
  assert (∀ u s, encodeUUID u = Ok s →
                 length s = 22%nat ∧
                 decodeToBigInt s
                 = Ok (bytesToBigInt (hex_to_bytes (remove_hyphens u) 16)))
    as Hone.
  { intros u s Hs.
    destruct (decide (len (remove_hyphens u) = 32)) as [Hlen|Hlen].
    - destruct (encodeUUID_ok u Hlen) as (s' & Hs' & Hls & Hds & _).
      rewrite Hs' in Hs. injection Hs as <-.
      by rewrite bytesToBigInt_horner.
    - by rewrite (encodeUUID_wrong_length u Hlen) in Hs. }
  intros H1 H2.
  destruct (Hone _ _ H1) as [Hl1 Hd1]. destruct (Hone _ _ H2) as [Hl2 Hd2].
  apply (lex_compare_values s1 s2 _ _ Hd1 Hd2). congruence.
Qed.

Lemma encodeUUID_order_witness :
  encodeUUID (lit "550e8400-e29b-41d4-a716-446655440000")
  = Ok (lit "59DrYgJvPERiY24HJX1JLb") ∧
  encodeUUID (lit "550E8400-E29B-41D4-A716-446655440001")
  = Ok (lit "59DrYgJvPERiY24HJX1JLc") ∧
  lex_compare (lit "59DrYgJvPERiY24HJX1JLb") (lit "59DrYgJvPERiY24HJX1JLc") = -1.
Proof.
  assert (encodeUUID (lit "550e8400-e29b-41d4-a716-446655440000")
          = Ok (lit "59DrYgJvPERiY24HJX1JLb")) as H1 by (vm_compute; reflexivity).
  assert (encodeUUID (lit "550E8400-E29B-41D4-A716-446655440001")
          = Ok (lit "59DrYgJvPERiY24HJX1JLc")) as H2 by (vm_compute; reflexivity).
  split; [exact H1|]. split; [exact H2|].
  rewrite (encodeUUID_order _ _ _ _ H1 H2). vm_compute. reflexivity.
Defined.
